(** * Fyre: the keyframe animation system of [animation.c]

    A shallow embedding of [src/src/animation.c] (de Jong Explorer) and the
    properties proved about it.  The C code works on a [GtkListStore] of
    keyframes, on [gdouble] times and on chunked files; each is modelled the
    way the code uses it:

    - [gdouble] is Rocq's primitive binary64 [float];
    - the list store is a stamped list of rows and a [GtkTreeIter] is a
      stamp with a row position;
    - a chunked file is its signature followed by its chunks;
    - the [while] loop of [animation_iter_seek_relative] is a step function
      iterated under a fuel bound that is proved sufficient.

    Definitions come first, lemmas and theorems after them. *)

From Stdlib Require Import ZArith List Bool Lia Floats.
From Stdlib.Strings Require Import Byte.
Import ListNotations.

Local Open Scope Z_scope.

(* ================================================================== *)
(** * Part 1: definitions *)
(* ================================================================== *)

(** ** [gdouble] and its object representation

    [animation_save_file] writes the eight bytes of a [gdouble] and
    [animation_load_file] reads them back ([*(gdouble* )data]).  The bytes
    are the IEEE-754 binary64 encoding in little-endian order.

    Rocq's [float] has a single NaN, so [double_bits] writes a NaN in its
    canonical quiet form where the code copies the eight bytes it holds; for
    every other value the bytes are those of the C object, and a NaN reads
    back as a NaN. *)

Definition gdouble : Set := float.

Definition sign_bit (s : bool) : Z :=
  if s then 9223372036854775808 else 0.

(** The 63 low bits of a finite binary64 value: biased exponent and
    fraction.  [4503599627370496] is [2^52]. *)
Definition SFmag (m : positive) (e : Z) : Z :=
  if Z.pos m <? 4503599627370496 then Z.pos m
  else (e + 1075) * 4503599627370496 + (Z.pos m - 4503599627370496).

(** Sign-magnitude key: the order of the keys is the order of the floats. *)
Definition SFord (x : spec_float) : Z :=
  match x with
  | S754_zero _ => 0
  | S754_infinity s => cond_Zopp s 9218868437227405312
  | S754_nan => 0
  | S754_finite s m e => cond_Zopp s (SFmag m e)
  end.

Definition SFis_nan (x : spec_float) : bool :=
  match x with S754_nan => true | _ => false end.

Definition double_bits (x : gdouble) : Z :=
  match Prim2SF x with
  | S754_zero s => sign_bit s
  | S754_infinity s => sign_bit s + 9218868437227405312
  | S754_nan => 9221120237041090560
  | S754_finite s m e => sign_bit s + SFmag m e
  end.

Definition bits_double (z : Z) : gdouble :=
  let s := 9223372036854775808 <=? z in
  let E := (z / 4503599627370496) mod 2048 in
  let frac := z mod 4503599627370496 in
  SF2Prim
    (if E =? 0 then
       if frac =? 0 then S754_zero s
       else S754_finite s (Z.to_pos frac) (-1074)
     else if E =? 2047 then
       if frac =? 0 then S754_infinity s else S754_nan
     else S754_finite s (Z.to_pos (frac + 4503599627370496)) (E - 1075)).

Definition Z_of_byte (b : byte) : Z := Z.of_N (Byte.to_N b).

Definition byte_of_Z (z : Z) : byte :=
  match Byte.of_N (Z.to_N (z mod 256)) with
  | Some b => b
  | None => x00
  end.

Fixpoint le_bytes (n : nat) (z : Z) : list byte :=
  match n with
  | O => []
  | S k => byte_of_Z z :: le_bytes k (z / 256)
  end.

Fixpoint le_value (l : list byte) : Z :=
  match l with
  | [] => 0
  | b :: rest => Z_of_byte b + 256 * le_value rest
  end.

(** [(guchar* ) &duration], [sizeof(duration)] bytes. *)
Definition gdouble_to_bytes (d : gdouble) : list byte :=
  le_bytes 8 (double_bits d).

(** [*(gdouble* )data]. *)
Definition gdouble_of_bytes (data : list byte) : gdouble :=
  bits_double (le_value data).

(** ** C strings *)

Definition is_nul (b : byte) : bool := Byte.eqb b x00.

(** The bytes of a buffer up to its first NUL: what [strlen] measures and
    what [g_strdup] (storing a [G_TYPE_STRING] column) copies. *)
Fixpoint c_string (l : list byte) : list byte :=
  match l with
  | [] => []
  | b :: rest => if is_nul b then [] else b :: c_string rest
  end.

Definition nul_free (l : list byte) : Prop := Forall (fun b => b <> x00) l.

Fixpoint bytes_eqb (a b : list byte) : bool :=
  match a, b with
  | [], [] => true
  | x :: a', y :: b' => Byte.eqb x y && bytes_eqb a' b'
  | _, _ => false
  end.

(** ** Outcomes of code that can go wrong *)

Inductive error : Set :=
| StaleIter   (* a [GtkTreeIter] that names no row of the model was read *)
| OutOfFuel.  (* the fuel bound of a loop was reached *)

Inductive result (A : Type) : Type :=
| Ok (a : A)
| Err (e : error).

Arguments Ok {A} a.
Arguments Err {A} e.

Definition bind {A B : Type} (r : result A) (k : A -> result B) : result B :=
  match r with
  | Ok a => k a
  | Err e => Err e
  end.

Notation "x <- r ;; k" := (bind r (fun x => k))
  (at level 61, r at next level, right associativity).

(** ** Collaborators

    The renderer ([DeJong]), the spline module and the image codec are used
    through their interfaces only. *)

Class Collaborators : Type := {
  Pixbuf : Type;
  Spline : Type;
  DeJong : Type;
  spline_template_smooth : Spline;
  spline_serialize : Spline -> list byte;
  spline_unserialize : list byte -> Spline;
  spline_solve_and_eval : option Spline -> gdouble -> gdouble;
  gdk_pixbuf_save_to_buffer : Pixbuf -> option (list byte);
  gdk_pixbuf_loader : list byte -> option Pixbuf;
  de_jong_new : DeJong;
  de_jong_make_thumbnail : DeJong -> Z -> Z -> Pixbuf;
  de_jong_save_string : DeJong -> list byte;
  de_jong_load_string : DeJong -> option (list byte) -> DeJong;
  de_jong_interpolate_linear : DeJong -> gdouble -> DeJong -> DeJong -> DeJong
}.

(** ** Chunked files *)

Definition ChunkType : Set := Z.

(** Modelled from the spec: the [CHUNK_TYPE] macro of [chunked-file.h] is not
    part of the sources; a chunk type is a 4-byte ASCII tag, packed here
    most significant character first. *)
Definition CHUNK_TYPE (a b c d : byte) : ChunkType :=
  Z.lor (Z.shiftl (Z_of_byte a) 24)
    (Z.lor (Z.shiftl (Z_of_byte b) 16)
       (Z.lor (Z.shiftl (Z_of_byte c) 8) (Z_of_byte d))).

Record Chunk : Set := {
  chunk_type : ChunkType;
  chunk_data : list byte
}.

(** Modelled from the spec: [chunked-file.c] is not part of the sources.  A
    file is a signature followed by chunks [(type, length, payload)], read
    back in file order; the length of a chunk is the length of its
    payload. *)
Record ChunkedFile : Set := {
  file_signature : list byte;
  file_chunks : list Chunk
}.

Definition chunk_length (c : Chunk) : nat := length (chunk_data c).

Definition chunked_file_new : ChunkedFile :=
  {| file_signature := []; file_chunks := [] |}.

Definition chunked_file_write_signature (f : ChunkedFile) (sig : list byte)
  : ChunkedFile :=
  {| file_signature := file_signature f ++ sig; file_chunks := file_chunks f |}.

Definition chunked_file_read_signature (f : ChunkedFile) (sig : list byte)
  : bool :=
  bytes_eqb (file_signature f) sig.

Definition chunked_file_write_chunk (f : ChunkedFile) (type : ChunkType)
  (data : list byte) : ChunkedFile :=
  {| file_signature := file_signature f;
     file_chunks := file_chunks f ++ [{| chunk_type := type; chunk_data := data |}] |}.

Definition FILE_SIGNATURE : list byte :=
  [ "d"; "e"; " "; "J"; "o"; "n"; "g"; " ";
    "E"; "x"; "p"; "l"; "o"; "r"; "e"; "r"; " ";
    "A"; "n"; "i"; "m"; "a"; "t"; "i"; "o"; "n";
    x0a; x0d; xff; x0a ]%byte.

Definition CHUNK_KEYFRAME_START : ChunkType := CHUNK_TYPE "K" "f" "r" "S".
Definition CHUNK_KEYFRAME_END : ChunkType := CHUNK_TYPE "K" "f" "r" "E".
Definition CHUNK_DE_JONG_PARAMS : ChunkType := CHUNK_TYPE "d" "j" "P" "R".
Definition CHUNK_THUMBNAIL : ChunkType := CHUNK_TYPE "d" "j" "T" "H".
Definition CHUNK_SPLINE : ChunkType := CHUNK_TYPE "s" "p" "l" "C".
Definition CHUNK_DURATION : ChunkType := CHUNK_TYPE "d" "u" "r" "a".

Definition recognized_chunk (t : ChunkType) : bool :=
  (t =? CHUNK_KEYFRAME_START) || (t =? CHUNK_KEYFRAME_END)
  || (t =? CHUNK_DE_JONG_PARAMS) || (t =? CHUNK_THUMBNAIL)
  || (t =? CHUNK_DURATION) || (t =? CHUNK_SPLINE).

(** Messages of [g_log] and of failed [g_return_if_fail] checks. *)
Inductive LogEntry : Set :=
| CriticalFopen
| CriticalSignature
| CriticalInvalidIter   (* [gtk_list_store_set] on an iterator naming no row *)
| WarnDurationSize (length : nat)
| WarnUnknownType (type : ChunkType).

(** ** The keyframe model: a [GtkListStore]

    A [GtkTreeIter] carries the stamp of the store it was made for and a
    position; it names a row while the stamps agree and the position is
    inside the list.  [gtk_list_store_clear] changes the stamp, so iterators
    taken before a clear name nothing afterwards. *)

Record GtkTreeIter : Set := {
  stamp : nat;
  user_data : nat
}.

(** Equality of the two fields the list store writes. *)
Definition tree_iter_eqb (a b : GtkTreeIter) : bool :=
  Nat.eqb (stamp a) (stamp b) && Nat.eqb (user_data a) (user_data b).

(** [memcmp (&x, &y, sizeof (GtkTreeIter)) == 0].  The comparison covers
    every byte of the structure: the stamp and [user_data], which the list
    store sets, and the others (the padding after the stamp, [user_data2] and
    [user_data3]), which the list store does not use and which hold what
    their owner left there.  [x_rest] and [y_rest] stand for those other
    bytes. *)
Definition iter_memcmp_eq (x : GtkTreeIter) (x_rest : Z) (y : GtkTreeIter)
  (y_rest : Z) : bool :=
  tree_iter_eqb x y && (x_rest =? y_rest).

Section Model.
Context {C : Collaborators}.

(** One row: the five columns of [animation_init]. *)
Record Keyframe : Type := {
  kf_thumbnail : option Pixbuf;        (* ANIMATION_MODEL_THUMBNAIL *)
  kf_params : option (list byte);      (* ANIMATION_MODEL_PARAMS    *)
  kf_duration : gdouble;               (* ANIMATION_MODEL_DURATION  *)
  kf_spline : option Spline;           (* ANIMATION_MODEL_SPLINE    *)
  kf_iter : option GtkTreeIter         (* ANIMATION_MODEL_ITER      *)
}.

Record GtkListStore : Type := {
  ls_stamp : nat;
  ls_rows : list Keyframe
}.

Definition iter_is_valid (store : GtkListStore) (it : GtkTreeIter) : bool :=
  Nat.eqb (stamp it) (ls_stamp store)
  && Nat.ltb (user_data it) (length (ls_rows store)).

(** A freshly appended row: every column at its type's initial value. *)
Definition empty_row : Keyframe :=
  {| kf_thumbnail := None; kf_params := None; kf_duration := 0%float;
     kf_spline := None; kf_iter := None |}.

Definition gtk_list_store_append (store : GtkListStore)
  : GtkListStore * GtkTreeIter :=
  ({| ls_stamp := ls_stamp store; ls_rows := ls_rows store ++ [empty_row] |},
   {| stamp := ls_stamp store; user_data := length (ls_rows store) |}).

Definition gtk_list_store_clear (store : GtkListStore) : GtkListStore :=
  {| ls_stamp := S (ls_stamp store); ls_rows := [] |}.

Fixpoint update_nth (n : nat) (f : Keyframe -> Keyframe) (l : list Keyframe)
  : list Keyframe :=
  match l, n with
  | [], _ => []
  | r :: rest, O => f r :: rest
  | r :: rest, S k => r :: update_nth k f rest
  end.

(** [gtk_list_store_set]: a call on an iterator that names no row changes
    nothing. *)
Definition gtk_list_store_set (store : GtkListStore) (it : GtkTreeIter)
  (f : Keyframe -> Keyframe) : GtkListStore :=
  if iter_is_valid store it then
    {| ls_stamp := ls_stamp store;
       ls_rows := update_nth (user_data it) f (ls_rows store) |}
  else store.

Definition set_thumbnail (v : option Pixbuf) (r : Keyframe) : Keyframe :=
  {| kf_thumbnail := v; kf_params := kf_params r; kf_duration := kf_duration r;
     kf_spline := kf_spline r; kf_iter := kf_iter r |}.

(** A [G_TYPE_STRING] column keeps a copy of the C string it is given. *)
Definition set_params (v : option (list byte)) (r : Keyframe) : Keyframe :=
  {| kf_thumbnail := kf_thumbnail r; kf_params := option_map c_string v;
     kf_duration := kf_duration r; kf_spline := kf_spline r;
     kf_iter := kf_iter r |}.

Definition set_duration (v : gdouble) (r : Keyframe) : Keyframe :=
  {| kf_thumbnail := kf_thumbnail r; kf_params := kf_params r; kf_duration := v;
     kf_spline := kf_spline r; kf_iter := kf_iter r |}.

Definition set_spline (v : option Spline) (r : Keyframe) : Keyframe :=
  {| kf_thumbnail := kf_thumbnail r; kf_params := kf_params r;
     kf_duration := kf_duration r; kf_spline := v; kf_iter := kf_iter r |}.

Definition set_iter (v : option GtkTreeIter) (r : Keyframe) : Keyframe :=
  {| kf_thumbnail := kf_thumbnail r; kf_params := kf_params r;
     kf_duration := kf_duration r; kf_spline := kf_spline r; kf_iter := v |}.

(** [gtk_tree_model_get]: the row an iterator names, if any. *)
Definition gtk_tree_model_get (store : GtkListStore) (it : GtkTreeIter)
  : option Keyframe :=
  if iter_is_valid store it then nth_error (ls_rows store) (user_data it)
  else None.

(** [gtk_tree_model_get_iter_first (model, &it)]: on an empty model the
    iterator is left as it was. *)
Definition gtk_tree_model_get_iter_first (store : GtkListStore)
  (it : GtkTreeIter) : bool * GtkTreeIter :=
  match ls_rows store with
  | [] => (false, it)
  | _ :: _ => (true, {| stamp := ls_stamp store; user_data := 0 |})
  end.

(** [gtk_tree_model_iter_next (model, &it)]: past the last row the iterator
    points one past the end and names nothing. *)
Definition gtk_tree_model_iter_next (store : GtkListStore) (it : GtkTreeIter)
  : bool * GtkTreeIter :=
  if iter_is_valid store it then
    (Nat.ltb (S (user_data it)) (length (ls_rows store)),
     {| stamp := stamp it; user_data := S (user_data it) |})
  else (false, it).

(** ** Animation objects *)

Record Animation : Type := {
  model : GtkListStore
}.

(** [animation_new]: [animation_init] creates an empty list store. *)
Definition animation_new (fresh_stamp : nat) : Animation :=
  {| model := {| ls_stamp := fresh_stamp; ls_rows := [] |} |}.

(** *** Keyframe manipulation *)

Definition animation_keyframe_append_default (self : Animation)
  : Animation * GtkTreeIter :=
  let (store, iter) := gtk_list_store_append (model self) in
  ({| model :=
        gtk_list_store_set store iter
          (fun r => set_spline (Some spline_template_smooth)
                      (set_duration 5%float (set_iter (Some iter) r))) |},
   iter).

Definition animation_keyframe_store_dejong (self : Animation)
  (iter : GtkTreeIter) (dejong : DeJong) : Animation :=
  let thumbnail := de_jong_make_thumbnail dejong 128 128 in
  let params := de_jong_save_string dejong in
  {| model :=
       gtk_list_store_set (model self) iter
         (fun r => set_params (Some params) (set_thumbnail (Some thumbnail) r)) |}.

Definition animation_keyframe_load_dejong (self : Animation)
  (iter : GtkTreeIter) (dejong : DeJong) : result DeJong :=
  match gtk_tree_model_get (model self) iter with
  | Some row => Ok (de_jong_load_string dejong (kf_params row))
  | None => Err StaleIter
  end.

Definition animation_keyframe_append (self : Animation) (dejong : DeJong)
  : Animation :=
  let (self', iter) := animation_keyframe_append_default self in
  animation_keyframe_store_dejong self' iter dejong.

Definition animation_clear (self : Animation) : Animation :=
  {| model := gtk_list_store_clear (model self) |}.

(** The scan of [animation_keyframe_get_time]: [my_iter] walks the rows
    from the first one, [index] is its position and [total] the time
    accumulated so far.  [my_iter] is a local that is not initialised:
    [my_rest] stands for the bytes of it that the list store never writes,
    [iter_rest] for those of [*iter]. *)
Fixpoint get_time_scan (st : nat) (rows : list Keyframe) (index : nat)
  (my_rest : Z) (iter : GtkTreeIter) (iter_rest : Z) (total : gdouble)
  : gdouble :=
  match rows with
  | [] => total
  | row :: rest =>
      if iter_memcmp_eq {| stamp := st; user_data := index |} my_rest
           iter iter_rest
      then total
      else get_time_scan st rest (S index) my_rest iter iter_rest
             (total + kf_duration row)%float
  end.

(** [animation_keyframe_get_time (self, iter)]: [iter_rest] is the rest of
    the bytes of [*iter], [my_rest] what the local [my_iter] holds in the
    same place. *)
Definition animation_keyframe_get_time (self : Animation) (iter : GtkTreeIter)
  (iter_rest my_rest : Z) : gdouble :=
  get_time_scan (ls_stamp (model self)) (ls_rows (model self)) 0 my_rest
    iter iter_rest 0%float.

(** *** Persistence *)

(** The state of the chunk loop of [animation_load_file]: the animation, the
    local [iter] (the keyframe being defined) and the messages logged. *)
Record LoadState : Type := {
  ld_self : Animation;
  ld_iter : GtkTreeIter;
  ld_log : list LogEntry
}.

(** [gtk_list_store_set (self->model, &iter, ...)] in the loop.  While no
    keyframe was started [iter] is not initialised and names no row: the
    library checks the iterator against the stamp of the store, refuses the
    call, leaves the store as it is and logs a critical message.  (Memory
    that happens to hold the stamp of the store would make the library follow
    the pointer it finds there; statements about the messages of a whole load
    exclude that content.) *)
Definition load_set (st : LoadState) (f : Keyframe -> Keyframe) : LoadState :=
  {| ld_self := {| model := gtk_list_store_set (model (ld_self st)) (ld_iter st) f |};
     ld_iter := ld_iter st;
     ld_log :=
       if iter_is_valid (model (ld_self st)) (ld_iter st) then ld_log st
       else ld_log st ++ [CriticalInvalidIter] |}.

Definition load_warn (st : LoadState) (w : LogEntry) : LoadState :=
  {| ld_self := ld_self st; ld_iter := ld_iter st; ld_log := ld_log st ++ [w] |}.

(** The body of the loop: the [switch (type)] on one chunk. *)
Definition load_chunk (st : LoadState) (c : Chunk) : LoadState :=
  let type := chunk_type c in
  let data := chunk_data c in
  if type =? CHUNK_KEYFRAME_START then
    (* Start a new keyframe, point iter at it *)
    let (self', iter') := animation_keyframe_append_default (ld_self st) in
    {| ld_self := self'; ld_iter := iter'; ld_log := ld_log st |}
  else if type =? CHUNK_KEYFRAME_END then
    st
  else if type =? CHUNK_DE_JONG_PARAMS then
    (* the data is copied into a string that is NUL-terminated *)
    load_set st (set_params (Some (data ++ [x00])))
  else if type =? CHUNK_THUMBNAIL then
    load_set st (set_thumbnail (gdk_pixbuf_loader data))
  else if type =? CHUNK_DURATION then
    if Nat.eqb (length data) 8 then
      load_set st (set_duration (gdouble_of_bytes data))
    else
      load_warn st (WarnDurationSize (length data))
  else if type =? CHUNK_SPLINE then
    load_set st (set_spline (Some (spline_unserialize data)))
  else
    load_warn st (WarnUnknownType type).

Definition load_chunks (st : LoadState) (chunks : list Chunk) : LoadState :=
  fold_left load_chunk chunks st.

(** [animation_load_file].  [f] is what [fopen (filename, "rb")] returned
    ([None] for [NULL]); [junk] is the content of the local [iter] before
    any keyframe was started.  The result is the animation afterwards and
    the messages logged. *)
Definition animation_load_file (self : Animation) (f : option ChunkedFile)
  (junk : GtkTreeIter) : Animation * list LogEntry :=
  match f with
  | None => (self, [CriticalFopen])
  | Some file =>
      if negb (chunked_file_read_signature file FILE_SIGNATURE) then
        (self, [CriticalSignature])
      else
        let st :=
          load_chunks
            {| ld_self := animation_clear self; ld_iter := junk; ld_log := [] |}
            (file_chunks file) in
        (ld_self st, ld_log st)
  end.

(** One turn of the loop of [animation_save_file]: the chunks of a
    keyframe. *)
Definition save_keyframe (f : ChunkedFile) (row : Keyframe) : ChunkedFile :=
  let f := chunked_file_write_chunk f CHUNK_KEYFRAME_START [] in
  let f :=
    match kf_params row with
    | Some params =>
        (* strlen (params) bytes *)
        chunked_file_write_chunk f CHUNK_DE_JONG_PARAMS (c_string params)
    | None => f
    end in
  let f :=
    match kf_thumbnail row with
    | Some thumb_pixbuf =>
        match gdk_pixbuf_save_to_buffer thumb_pixbuf with
        | Some buffer => chunked_file_write_chunk f CHUNK_THUMBNAIL buffer
        | None => f
        end
    | None => f
    end in
  let f :=
    chunked_file_write_chunk f CHUNK_DURATION (gdouble_to_bytes (kf_duration row)) in
  let f :=
    match kf_spline row with
    | Some spline => chunked_file_write_chunk f CHUNK_SPLINE (spline_serialize spline)
    | None => f
    end in
  chunked_file_write_chunk f CHUNK_KEYFRAME_END [].

(** [animation_save_file].  [opened] tells whether [fopen (filename, "wb")]
    succeeded; the result is the content of the file written, [None] when
    nothing was. *)
Definition animation_save_file (self : Animation) (opened : bool)
  : option ChunkedFile :=
  if opened then
    Some (fold_left save_keyframe (ls_rows (model self))
            (chunked_file_write_signature chunked_file_new FILE_SIGNATURE))
  else None.

(** *** Animation iterators *)

Definition animation_get_length (self : Animation) : gdouble :=
  fold_left (fun total row => (total + kf_duration row)%float)
    (ls_rows (model self)) 0%float.

Record AnimationIter : Set := {
  valid : bool;
  keyframe : GtkTreeIter;
  absolute_time : gdouble;
  time_after_keyframe : gdouble
}.

Definition animation_iter_get_first (self : Animation) (iter : AnimationIter)
  : AnimationIter :=
  let (v, k) := gtk_tree_model_get_iter_first (model self) (keyframe iter) in
  {| valid := v; keyframe := k; absolute_time := 0%float;
     time_after_keyframe := 0%float |}.

(** Where one turn of a loop leaves it. *)
Inductive loop_step (A : Type) : Type :=
| Continue (a : A)
| Break (a : A)
| Fault (e : error).

Arguments Continue {A} a.
Arguments Break {A} a.
Arguments Fault {A} e.

(** The loop of [animation_iter_seek_relative]: its condition and one turn of
    its body. *)
Definition seek_step (self : Animation) (iter : AnimationIter)
  : loop_step AnimationIter :=
  if negb (valid iter) then Break iter
  else
    match gtk_tree_model_get (model self) (keyframe iter) with
    | None => Fault StaleIter
    | Some row =>
        let keyframe_duration := kf_duration row in
        if (keyframe_duration <=? time_after_keyframe iter)%float then
          (* Skip to the next keyframe *)
          let (v, k) := gtk_tree_model_iter_next (model self) (keyframe iter) in
          Continue
            {| valid := v; keyframe := k; absolute_time := absolute_time iter;
               time_after_keyframe :=
                 (time_after_keyframe iter - keyframe_duration)%float |}
        else if (time_after_keyframe iter <? 0)%float then
          (* Seek back to the beginning *)
          Continue (animation_iter_get_first self iter)
        else Break iter
    end.

Fixpoint seek_loop (fuel : nat) (self : Animation) (iter : AnimationIter)
  : result AnimationIter :=
  match fuel with
  | O => Err OutOfFuel
  | S fuel' =>
      match seek_step self iter with
      | Continue iter' => seek_loop fuel' self iter'
      | Break iter' => Ok iter'
      | Fault e => Err e
      end
  end.

(** Enough turns for any iterator: one reset, one skip per keyframe and the
    final test. *)
Definition seek_fuel (self : Animation) : nat :=
  length (ls_rows (model self)) + 2.

Definition animation_iter_seek_relative (self : Animation) (iter : AnimationIter)
  (delta_time : gdouble) : result AnimationIter :=
  seek_loop (seek_fuel self) self
    {| valid := valid iter; keyframe := keyframe iter;
       absolute_time := absolute_time iter;
       time_after_keyframe := (time_after_keyframe iter + delta_time)%float |}.

Definition animation_iter_seek (self : Animation) (iter : AnimationIter)
  (absolute_time : gdouble) : result AnimationIter :=
  animation_iter_seek_relative self (animation_iter_get_first self iter)
    absolute_time.

(** [alpha = iter->time_after_keyframe / keyframe_duration], before the
    spline is applied. *)
Definition linear_alpha (iter : AnimationIter) (row : Keyframe) : gdouble :=
  (time_after_keyframe iter / kf_duration row)%float.

Definition animation_iter_load_dejong (self : Animation) (iter : AnimationIter)
  (dejong : DeJong) : result DeJong :=
  if negb (valid iter) then Ok dejong   (* g_return_if_fail (iter->valid) *)
  else
    pair_a <- animation_keyframe_load_dejong self (keyframe iter) de_jong_new ;;
    pair_b <-
      (let (has_next, next_keyframe) :=
         gtk_tree_model_iter_next (model self) (keyframe iter) in
       if has_next then
         animation_keyframe_load_dejong self next_keyframe de_jong_new
       else Ok pair_a) ;;
    match gtk_tree_model_get (model self) (keyframe iter) with
    | None => Err StaleIter
    | Some row =>
        let alpha := linear_alpha iter row in
        let alpha := spline_solve_and_eval (kf_spline row) alpha in
        Ok (de_jong_interpolate_linear dejong alpha pair_a pair_b)
    end.

Record DeJongPair : Type := {
  a : DeJong;
  b : DeJong
}.

(** [animation_iter_read_frame]: the value returned, the iterator and the
    frame afterwards. *)
Definition animation_iter_read_frame (self : Animation) (iter : AnimationIter)
  (frame : DeJongPair) (frame_rate : gdouble)
  : result (bool * AnimationIter * DeJongPair) :=
  if negb (valid iter) then Ok (false, iter, frame)
  else
    a' <- animation_iter_load_dejong self iter (a frame) ;;
    iter' <- animation_iter_seek_relative self iter (1 / frame_rate)%float ;;
    if negb (valid iter') then Ok (false, iter', {| a := a'; b := b frame |})
    else
      b' <- animation_iter_load_dejong self iter' (b frame) ;;
      Ok (true, iter', {| a := a'; b := b' |}).

End Model.

Arguments Continue {A} a.
Arguments Break {A} a.
Arguments Fault {A} e.

(** ** Callers and sample data *)

Section Callers.
Context {C : Collaborators}.

(** A caller's loop: [n] calls of [animation_iter_read_frame] in a row, each
    on the iterator and frame the previous call left; the values returned,
    in order, and the final iterator and frame. *)
Fixpoint read_frames (n : nat) (self : Animation) (iter : AnimationIter)
  (frame : DeJongPair) (frame_rate : gdouble)
  : result (list bool * AnimationIter * DeJongPair) :=
  match n with
  | O => Ok ([], iter, frame)
  | S k =>
      r <- animation_iter_read_frame self iter frame frame_rate ;;
      let '(ok, iter', frame') := r in
      rest <- read_frames k self iter' frame' frame_rate ;;
      let '(oks, iter'', frame'') := rest in
      Ok (ok :: oks, iter'', frame'')
  end.


(** An animation holding the given rows. *)
Definition animation_of_rows (st : nat) (rows : list Keyframe) : Animation :=
  {| model := {| ls_stamp := st; ls_rows := rows |} |}.

(** The columns a save and load cycle is expected to keep. *)
Definition kept_columns (row : Keyframe)
  : gdouble * option (list byte) * option Spline :=
  (kf_duration row, kf_params row, kf_spline row).

(** What a save and load cycle makes of a thumbnail: encoded, then
    decoded. *)
Definition reloaded_thumbnail (row : Keyframe) : option Pixbuf :=
  match kf_thumbnail row with
  | Some p =>
      match gdk_pixbuf_save_to_buffer p with
      | Some buffer => gdk_pixbuf_loader buffer
      | None => None
      end
  | None => None
  end.

End Callers.

(** ** Notions used to state the properties *)

Section Notions.
Context {C : Collaborators}.

(** The number of rows from the keyframe of a valid iterator to the end. *)
Definition remaining (self : Animation) (iter : AnimationIter) : nat :=
  if valid iter then length (ls_rows (model self)) - user_data (keyframe iter)
  else 0.

Definition not_negative (iter : AnimationIter) : Prop :=
  (time_after_keyframe iter <? 0)%float = false.

(** A valid iterator names a row. *)
Definition iter_wf (self : Animation) (iter : AnimationIter) : Prop :=
  valid iter = true -> iter_is_valid (model self) (keyframe iter) = true.

(** The iterator a skip leads to. *)
Definition skipped (self : Animation) (iter : AnimationIter) (row : Keyframe)
  : AnimationIter :=
  {| valid := Nat.ltb (S (user_data (keyframe iter))) (length (ls_rows (model self)));
     keyframe := {| stamp := stamp (keyframe iter);
                    user_data := S (user_data (keyframe iter)) |};
     absolute_time := absolute_time iter;
     time_after_keyframe := (time_after_keyframe iter - kf_duration row)%float |}.

(** The row [animation_keyframe_append_default] creates for the iterator
    it returns. *)
Definition default_row (it : GtkTreeIter) : Keyframe :=
  {| kf_thumbnail := None; kf_params := None; kf_duration := 5%float;
     kf_spline := Some spline_template_smooth; kf_iter := Some it |}.

(** The messages logged so far play no part in what the loop does. *)
Definition with_log (l : list LogEntry) (st : LoadState) : LoadState :=
  {| ld_self := ld_self st; ld_iter := ld_iter st; ld_log := l ++ ld_log st |}.

Definition no_log (st : LoadState) : LoadState :=
  {| ld_self := ld_self st; ld_iter := ld_iter st; ld_log := [] |}.

(** The chunks [save_keyframe] writes for a row. *)
Definition keyframe_chunks (row : Keyframe) : list Chunk :=
  [{| chunk_type := CHUNK_KEYFRAME_START; chunk_data := [] |}]
  ++ match kf_params row with
     | Some params =>
         [{| chunk_type := CHUNK_DE_JONG_PARAMS; chunk_data := c_string params |}]
     | None => []
     end
  ++ match kf_thumbnail row with
     | Some p =>
         match gdk_pixbuf_save_to_buffer p with
         | Some buffer => [{| chunk_type := CHUNK_THUMBNAIL; chunk_data := buffer |}]
         | None => []
         end
     | None => []
     end
  ++ [{| chunk_type := CHUNK_DURATION;
         chunk_data := gdouble_to_bytes (kf_duration row) |}]
  ++ match kf_spline row with
     | Some spline =>
         [{| chunk_type := CHUNK_SPLINE; chunk_data := spline_serialize spline |}]
     | None => []
     end
  ++ [{| chunk_type := CHUNK_KEYFRAME_END; chunk_data := [] |}].

(** What a row is after it was saved and loaded as the row that [it]
    names. *)
Definition reloaded_row (it : GtkTreeIter) (row : Keyframe) : Keyframe :=
  {| kf_thumbnail := reloaded_thumbnail row;
     kf_params := kf_params row;
     kf_duration := kf_duration row;
     kf_spline := kf_spline row;
     kf_iter := Some it |}.

(** A row that [animation_save_file] writes in full: its parameter string,
    if any, is a C string and it has a spline. *)
Definition savable (row : Keyframe) : Prop :=
  (forall p, kf_params row = Some p -> nul_free p) /\ kf_spline row <> None.

(** The state of the chunk loop while the last row of the store is the
    keyframe being defined. *)
Definition defining (st : nat) (rows : list Keyframe) (row : Keyframe)
  : LoadState :=
  {| ld_self := animation_of_rows st (rows ++ [row]);
     ld_iter := {| stamp := st; user_data := length rows |};
     ld_log := [] |}.

(** The durations of the rows before position [n], added up from 0 in
    store order, the way the scans of the code add them. *)
Definition durations_before (rows : list Keyframe) (n : nat) : gdouble :=
  fold_left (fun total row => (total + kf_duration row)%float)
    (firstn n rows) 0%float.

(** A single walk over the rows from position [index] with offset [t]:
    every keyframe that the offset covers is left behind and its duration
    taken off the offset. *)
Fixpoint walk (st : nat) (rows : list Keyframe) (index : nat)
  (abs t : gdouble) : AnimationIter :=
  match rows with
  | [] =>
      {| valid := false; keyframe := {| stamp := st; user_data := index |};
         absolute_time := abs; time_after_keyframe := t |}
  | row :: rest =>
      if (kf_duration row <=? t)%float then
        walk st rest (S index) abs (t - kf_duration row)%float
      else
        {| valid := true; keyframe := {| stamp := st; user_data := index |};
           absolute_time := abs; time_after_keyframe := t |}
  end.

(** What any row is after a save and load cycle: the parameter string cut
    at its first NUL, a missing spline replaced by the template. *)
Definition resaved_row (it : GtkTreeIter) (row : Keyframe) : Keyframe :=
  {| kf_thumbnail := reloaded_thumbnail row;
     kf_params := option_map c_string (kf_params row);
     kf_duration := kf_duration row;
     kf_spline :=
       Some match kf_spline row with
            | Some spline => spline_unserialize (spline_serialize spline)
            | None => spline_template_smooth
            end;
     kf_iter := Some it |}.

Fixpoint resaved_rows (st index : nat) (rows : list Keyframe) : list Keyframe :=
  match rows with
  | [] => []
  | row :: rest =>
      resaved_row {| stamp := st; user_data := index |} row
      :: resaved_rows st (S index) rest
  end.

(** The number of chunks of a type in a file. *)
Definition count_type (t : ChunkType) (chunks : list Chunk) : nat :=
  length (filter (fun c => chunk_type c =? t) chunks).

(** Every row holds, in its iterator column, the iterator that names it. *)
Definition rows_name_themselves (st : nat) (rows : list Keyframe) : Prop :=
  forall i row,
    nth_error rows i = Some row ->
    kf_iter row = Some {| stamp := st; user_data := i |}.

(** What the chunk loop keeps true of the store, whatever the chunks. *)
Definition load_invariant (st : LoadState) : Prop :=
  Forall savable (ls_rows (model (ld_self st)))
  /\ rows_name_themselves (ls_stamp (model (ld_self st)))
       (ls_rows (model (ld_self st))).

(** The chunks that make [animation_load_file] write a column of the
    current keyframe. *)
Definition sets_a_column (c : Chunk) : bool :=
  (chunk_type c =? CHUNK_DE_JONG_PARAMS) || (chunk_type c =? CHUNK_THUMBNAIL)
  || ((chunk_type c =? CHUNK_DURATION) && Nat.eqb (length (chunk_data c)) 8)
  || (chunk_type c =? CHUNK_SPLINE).

(** The messages a chunk makes [animation_load_file] log; [started] tells
    whether a keyframe-start chunk came before it. *)
Definition chunk_messages (started : bool) (c : Chunk) : list LogEntry :=
  if recognized_chunk (chunk_type c) then
    if (chunk_type c =? CHUNK_DURATION) && negb (Nat.eqb (length (chunk_data c)) 8)
    then [WarnDurationSize (length (chunk_data c))]
    else if sets_a_column c && negb started then [CriticalInvalidIter]
    else []
  else [WarnUnknownType (chunk_type c)].

Fixpoint file_messages (started : bool) (chunks : list Chunk) : list LogEntry :=
  match chunks with
  | [] => []
  | c :: rest =>
      chunk_messages started c
      ++ file_messages (started || (chunk_type c =? CHUNK_KEYFRAME_START)) rest
  end.

End Notions.

(** An iterator nobody initialised yet. *)
Definition blank_iter : AnimationIter :=
  {| valid := false; keyframe := {| stamp := 0; user_data := 0 |};
     absolute_time := 0%float; time_after_keyframe := 0%float |}.

Fixpoint pair_up (l : list byte) : list (byte * byte) :=
  match l with
  | x :: y :: rest => (x, y) :: pair_up rest
  | _ => []
  end.

(** Simple collaborators, used to run the model on concrete data: an image
    is its encoded bytes, a spline is a list of two-byte control points, a
    [DeJong] object is its parameter string and interpolation keeps the
    first endpoint. *)
Definition sample_collaborators : Collaborators :=
  {| Pixbuf := list byte;
     Spline := list (byte * byte);
     DeJong := list byte;
     spline_template_smooth := [(x00, x00); (xff, xff)];
     spline_serialize := flat_map (fun p => [fst p; snd p]);
     spline_unserialize := pair_up;
     spline_solve_and_eval := fun _ alpha => alpha;
     gdk_pixbuf_save_to_buffer := fun p => Some p;
     gdk_pixbuf_loader := fun data => Some data;
     de_jong_new := [];
     de_jong_make_thumbnail := fun d _ _ => d;
     de_jong_save_string := fun d => d;
     de_jong_load_string :=
       fun d s => match s with Some p => p | None => d end;
     de_jong_interpolate_linear := fun _ _ pa _ => pa |}.

Definition sample_row (duration : gdouble) : @Keyframe sample_collaborators :=
  {| kf_thumbnail := None;
     kf_params := Some ["a"; "="; "1"]%byte;
     kf_duration := duration;
     kf_spline := Some (@spline_template_smooth sample_collaborators);
     kf_iter := None |}.

Definition sample_frame : @DeJongPair sample_collaborators :=
  {| a := @de_jong_new sample_collaborators;
     b := @de_jong_new sample_collaborators |}.

(** One keyframe of 3 seconds; two keyframes of 5 seconds each. *)
Definition anim_3 : @Animation sample_collaborators :=
  animation_of_rows 1 [sample_row 3%float].

Definition anim_5_5 : @Animation sample_collaborators :=
  animation_of_rows 1 [sample_row 5%float; sample_row 5%float].

(** The state of the chunk loop right after the start of a first
    keyframe. *)
Definition sample_load_state : @LoadState sample_collaborators :=
  load_chunk
    {| ld_self := animation_new 1; ld_iter := keyframe blank_iter; ld_log := [] |}
    {| chunk_type := CHUNK_KEYFRAME_START; chunk_data := [] |}.

(** Two keyframes of no duration. *)
Definition anim_0_0 : @Animation sample_collaborators :=
  animation_of_rows 1 [sample_row 0%float; sample_row 0%float].

(** Chunks with a parameter string that has a NUL inside, a chunk of a
    type the reader does not know and a second keyframe. *)
Definition sample_chunks : list Chunk :=
  [ {| chunk_type := CHUNK_KEYFRAME_START; chunk_data := [] |};
    {| chunk_type := CHUNK_DE_JONG_PARAMS; chunk_data := ["a"; x00; "b"]%byte |};
    {| chunk_type := CHUNK_TYPE "t" "E" "X" "t"; chunk_data := ["x"]%byte |};
    {| chunk_type := CHUNK_KEYFRAME_END; chunk_data := [] |};
    {| chunk_type := CHUNK_KEYFRAME_START; chunk_data := [] |};
    {| chunk_type := CHUNK_DURATION; chunk_data := gdouble_to_bytes 2.5%float |} ].


(* ================================================================== *)
(** * Part 2: lemmas and theorems *)
(* ================================================================== *)

(** ** Binary64 arithmetic *)

Lemma digits2_pos_bounds (m : positive) :
  2 ^ (Z.pos (digits2_pos m) - 1) <= Z.pos m < 2 ^ Z.pos (digits2_pos m).
Proof.
  induction m as [p IH | p IH | ]; cbn [digits2_pos].
  - rewrite Pos2Z.inj_succ.
    replace (Z.succ (Z.pos (digits2_pos p)) - 1) with (Z.succ (Z.pos (digits2_pos p) - 1)) by lia.
    rewrite !Z.pow_succ_r by lia. lia.
  - rewrite Pos2Z.inj_succ.
    replace (Z.succ (Z.pos (digits2_pos p)) - 1) with (Z.succ (Z.pos (digits2_pos p) - 1)) by lia.
    rewrite !Z.pow_succ_r by lia. lia.
  - cbn. lia.
Qed.

Lemma valid_finite_bounds (s : bool) (m : positive) (e : Z) :
  valid_binary (S754_finite s m e) = true ->
  Z.pos m < 9007199254740992 /\ -1074 <= e <= 971 /\
  (Z.pos m < 4503599627370496 -> e = -1074).
Proof.
  unfold valid_binary, bounded, canonical_mantissa, fexp, SpecFloat.emin, prec, emax.
  rewrite andb_true_iff, Z.eqb_eq, Z.leb_le.
  intros [Hc He].
  pose proof (digits2_pos_bounds m) as [Hlo Hhi].
  set (d := Z.pos (digits2_pos m)) in *.
  assert (Hd : d <= 53) by lia.
  assert (H53 : 2 ^ d <= 2 ^ 53) by (apply Z.pow_le_mono_r; lia).
  change (2 ^ 53) with 9007199254740992 in H53.
  split; [lia|]. split; [lia|].
  intros Hsub.
  assert (d - 1 < 52).
  { apply (Z.pow_lt_mono_r_iff 2); [lia | lia |].
    change (2 ^ 52) with 4503599627370496. lia. }
  lia.
Qed.

Lemma SFmag_bounds (s : bool) (m : positive) (e : Z) :
  valid_binary (S754_finite s m e) = true ->
  0 < SFmag m e < 9218868437227405312.
Proof.
  intros Hv. apply valid_finite_bounds in Hv. unfold SFmag.
  destruct (Z.ltb_spec (Z.pos m) 4503599627370496); lia.
Qed.

Lemma SFmag_compare (s1 s2 : bool) (m1 m2 : positive) (e1 e2 : Z) :
  valid_binary (S754_finite s1 m1 e1) = true ->
  valid_binary (S754_finite s2 m2 e2) = true ->
  match e1 ?= e2 with
  | Lt => Lt
  | Gt => Gt
  | Eq => Pos.compare_cont Eq m1 m2
  end = (SFmag m1 e1 ?= SFmag m2 e2).
Proof.
  intros H1 H2. apply valid_finite_bounds in H1, H2. unfold SFmag.
  change (Pos.compare_cont Eq m1 m2) with (Z.pos m1 ?= Z.pos m2).
  destruct (Z.ltb_spec (Z.pos m1) 4503599627370496);
    destruct (Z.ltb_spec (Z.pos m2) 4503599627370496);
    destruct (Z.compare_spec e1 e2);
    match goal with
    | |- ?c = (?a ?= ?b) =>
        destruct (Z.compare_spec a b); try reflexivity; try lia
    end;
    match goal with
    | |- (?a ?= ?b) = _ =>
        destruct (Z.compare_spec a b); try reflexivity; try lia
    end.
Qed.

Lemma SFcompare_ord (x y : spec_float) :
  valid_binary x = true -> valid_binary y = true ->
  SFis_nan x = false -> SFis_nan y = false ->
  SFcompare x y = Some (SFord x ?= SFord y).
Proof.
  intros Hx Hy Nx Ny.
  destruct x as [sx | sx | | sx mx ex]; try discriminate Nx;
    destruct y as [sy | sy | | sy my ey]; try discriminate Ny;
    try (pose proof (SFmag_bounds _ _ _ Hx));
    try (pose proof (SFmag_bounds _ _ _ Hy));
    cbn [SFcompare SFord].
  all: try (destruct sx; try destruct sy; cbn [cond_Zopp];
            match goal with
            | |- Some _ = Some (?a ?= ?b) =>
                destruct (Z.compare_spec a b); try reflexivity; lia
            end).
  all: try (destruct sy; cbn [cond_Zopp];
            match goal with
            | |- Some _ = Some (?a ?= ?b) =>
                destruct (Z.compare_spec a b); try reflexivity; lia
            end).
  f_equal. destruct sx, sy; cbn [cond_Zopp].
  - rewrite Z.compare_opp, (Z.compare_antisym (SFmag mx ex) (SFmag my ey)).
    rewrite <- (SFmag_compare _ _ _ _ _ _ Hx Hy).
    destruct (ex ?= ey); reflexivity.
  - destruct (Z.compare_spec (- SFmag mx ex) (SFmag my ey)); try reflexivity; lia.
  - destruct (Z.compare_spec (SFmag mx ex) (- SFmag my ey)); try reflexivity; lia.
  - apply SFmag_compare with (s1 := false) (s2 := false); assumption.
Qed.

Lemma shl_align_fst (mx : positive) (ex ez : Z) :
  ez <= ex -> Z.pos (fst (shl_align mx ex ez)) = Z.pos mx * 2 ^ (ex - ez).
Proof.
  intros Hle. unfold shl_align.
  destruct (ez - ex) as [ | p | p] eqn:E; cbn [fst].
  - replace (ex - ez) with 0 by lia. cbn. lia.
  - lia.
  - replace (ex - ez) with (Z.pos p) by lia.
    change (Pos.iter xO mx p) with (shift_pos p mx).
    rewrite shift_pos_correct. change (Z.pow_pos 2 p) with (2 ^ Z.pos p). lia.
Qed.

Lemma SFmag_aligned (s1 s2 : bool) (m1 m2 : positive) (e1 e2 : Z) :
  valid_binary (S754_finite s1 m1 e1) = true ->
  valid_binary (S754_finite s2 m2 e2) = true ->
  SFmag m1 e1 <= SFmag m2 e2 ->
  Z.pos (fst (shl_align m1 e1 (Z.min e1 e2))) <=
  Z.pos (fst (shl_align m2 e2 (Z.min e1 e2))).
Proof.
  intros H1 H2 Hle.
  pose proof (SFmag_compare _ _ _ _ _ _ H1 H2) as Hc.
  apply valid_finite_bounds in H1, H2.
  rewrite !shl_align_fst by lia.
  destruct (Z.compare_spec e1 e2) as [E | E | E].
  - subst e2. rewrite Z.min_id, Z.sub_diag. cbn [Z.pow].
    change (Pos.compare_cont Eq m1 m2) with (Z.pos m1 ?= Z.pos m2) in Hc.
    destruct (Z.compare_spec (Z.pos m1) (Z.pos m2));
      destruct (Z.compare_spec (SFmag m1 e1) (SFmag m2 e1)); try discriminate; lia.
  - rewrite Z.min_l, Z.sub_diag by lia. cbn [Z.pow].
    assert (2 ^ 1 <= 2 ^ (e2 - e1)) by (apply Z.pow_le_mono_r; lia).
    change (2 ^ 1) with 2 in *.
    assert (Z.pos m2 * 2 <= Z.pos m2 * 2 ^ (e2 - e1))
      by (apply Z.mul_le_mono_nonneg_l; lia).
    lia.
  - destruct (Z.compare_spec (SFmag m1 e1) (SFmag m2 e2)); try discriminate; lia.
Qed.


Lemma binary_normalize_nonneg (m e : Z) :
  0 <= m ->
  SFltb (binary_normalize prec emax m e false) (S754_zero false) = false.
Proof.
  intros Hm. destruct m as [ | p | p]; [reflexivity | | lia].
  cbn [binary_normalize]. unfold binary_round, binary_round_aux.
  destruct (shl_align _ _ _) as [mz ez].
  destruct (shr_fexp _ _ _ _ _) as [mrs e'].
  destruct (shr_fexp _ _ _ _ _) as [mrs' e''].
  destruct (shr_m mrs'); [reflexivity | | reflexivity].
  destruct (e'' <=? emax - prec); reflexivity.
Qed.

Lemma SFleb_ord (x y : spec_float) :
  valid_binary x = true -> valid_binary y = true ->
  SFleb x y = true ->
  SFis_nan x = false /\ SFis_nan y = false /\ SFord x <= SFord y.
Proof.
  intros Hx Hy. unfold SFleb.
  destruct (SFis_nan x) eqn:Nx; [destruct x; try discriminate Nx; cbn; discriminate |].
  destruct (SFis_nan y) eqn:Ny;
    [destruct y; try discriminate Ny; destruct x; cbn; discriminate |].
  rewrite SFcompare_ord by assumption.
  destruct (Z.compare_spec (SFord x) (SFord y)); try discriminate; intros _; lia.
Qed.

Lemma cond_Zopp_sub_nonneg (sx sy : bool) (a b X Y : Z) :
  0 < a -> 0 < b -> 0 < X -> 0 < Y ->
  (b <= a -> Y <= X) -> (a <= b -> X <= Y) ->
  cond_Zopp sy b <= cond_Zopp sx a ->
  0 <= cond_Zopp sx X - cond_Zopp sy Y.
Proof.
  destruct sx, sy; cbn [cond_Zopp]; lia.
Qed.

Lemma SFsub_finite_nonneg (sx sy : bool) (mx my : positive) (ex ey : Z) :
  valid_binary (S754_finite sx mx ex) = true ->
  valid_binary (S754_finite sy my ey) = true ->
  cond_Zopp sy (SFmag my ey) <= cond_Zopp sx (SFmag mx ex) ->
  0 <= cond_Zopp sx (Z.pos (fst (shl_align mx ex (Z.min ex ey)))) -
       cond_Zopp sy (Z.pos (fst (shl_align my ey (Z.min ex ey)))).
Proof.
  intros Hx Hy Hord.
  apply cond_Zopp_sub_nonneg with (a := SFmag mx ex) (b := SFmag my ey).
  - apply (SFmag_bounds _ _ _ Hx).
  - apply (SFmag_bounds _ _ _ Hy).
  - apply Pos2Z.is_pos.
  - apply Pos2Z.is_pos.
  - intros Hle. rewrite (Z.min_comm ex ey).
    exact (SFmag_aligned _ _ _ _ _ _ Hy Hx Hle).
  - exact (SFmag_aligned _ _ _ _ _ _ Hx Hy).
  - exact Hord.
Qed.

Lemma cond_Zopp_nonpos (s : bool) (a : Z) :
  0 < a -> cond_Zopp s a <= 0 -> s = true.
Proof. destruct s; cbn [cond_Zopp]; [reflexivity | lia]. Qed.

Lemma cond_Zopp_nonneg (s : bool) (a : Z) :
  0 < a -> 0 <= cond_Zopp s a -> s = false.
Proof. destruct s; cbn [cond_Zopp]; [lia | reflexivity]. Qed.

Lemma cond_Zopp_le_big (s1 s2 : bool) (a b : Z) :
  0 < a < b -> cond_Zopp s1 a <= cond_Zopp s2 b -> s2 = false.
Proof. destruct s1, s2; cbn [cond_Zopp]; solve [reflexivity | lia]. Qed.

Lemma cond_Zopp_big_le (s1 s2 : bool) (a b : Z) :
  0 < a < b -> cond_Zopp s1 b <= cond_Zopp s2 a -> s1 = true.
Proof. destruct s1, s2; cbn [cond_Zopp]; solve [reflexivity | lia]. Qed.

Lemma SFord_finite (s : bool) (m : positive) (e : Z) :
  SFord (S754_finite s m e) = cond_Zopp s (SFmag m e).
Proof. reflexivity. Qed.

Lemma SFord_infinity (s : bool) :
  SFord (S754_infinity s) = cond_Zopp s 9218868437227405312.
Proof. reflexivity. Qed.

Lemma SFord_zero (s : bool) : SFord (S754_zero s) = 0.
Proof. reflexivity. Qed.

Lemma SFsub_nonneg (x y : spec_float) :
  valid_binary x = true -> valid_binary y = true ->
  SFleb y x = true ->
  SFltb (SF64sub x y) (S754_zero false) = false.
Proof.
  intros Hx Hy Hle.
  destruct (SFleb_ord _ _ Hy Hx Hle) as (Ny & Nx & Hord).
  destruct x as [sx | sx | | sx mx ex]; try discriminate Nx;
    destruct y as [sy | sy | | sy my ey]; try discriminate Ny;
    rewrite ?SFord_finite, ?SFord_infinity, ?SFord_zero in Hord.
  - destruct sx, sy; reflexivity.
  - apply cond_Zopp_nonpos in Hord; [subst sy; reflexivity | lia].
  - apply cond_Zopp_nonpos in Hord; [subst sy; reflexivity |].
    apply (SFmag_bounds _ _ _ Hy).
  - apply cond_Zopp_nonneg in Hord; [subst sx; reflexivity | lia].
  - destruct sx, sy; cbn [cond_Zopp] in Hord; first [reflexivity | lia].
  - apply cond_Zopp_le_big in Hord; [subst sx; reflexivity |].
    apply (SFmag_bounds _ _ _ Hy).
  - apply cond_Zopp_nonneg in Hord; [subst sx; reflexivity |].
    apply (SFmag_bounds _ _ _ Hx).
  - apply cond_Zopp_big_le in Hord; [subst sy; reflexivity |].
    apply (SFmag_bounds _ _ _ Hx).
  - unfold SF64sub; cbn [SFsub].
    apply binary_normalize_nonneg, SFsub_finite_nonneg; assumption.
Qed.

Lemma float_sub_not_neg (x y : float) :
  (y <=? x)%float = true -> (x - y <? 0)%float = false.
Proof.
  rewrite leb_spec, ltb_spec, sub_spec. intros H.
  apply SFsub_nonneg; auto using Prim2SF_valid.
Qed.

(** ** The bytes of a [gdouble] *)

Lemma Z_of_byte_range (x : byte) : 0 <= Z_of_byte x < 256.
Proof.
  unfold Z_of_byte. pose proof (Byte.to_N_bounded x). lia.
Qed.

Lemma Z_of_byte_of_Z (z : Z) : Z_of_byte (byte_of_Z z) = z mod 256.
Proof.
  unfold byte_of_Z, Z_of_byte.
  pose proof (Z.mod_pos_bound z 256 ltac:(lia)) as Hr.
  destruct (Byte.of_N (Z.to_N (z mod 256))) as [x | ] eqn:E.
  - apply Byte.to_of_N in E. rewrite E. lia.
  - apply Byte.of_N_None_iff in E. lia.
Qed.

Lemma le_bytes_length (n : nat) (z : Z) : length (le_bytes n z) = n.
Proof.
  revert z. induction n as [ | n IH]; intros z; cbn [le_bytes length].
  - reflexivity.
  - now rewrite IH.
Qed.

Lemma le_value_le_bytes (n : nat) (z : Z) :
  le_value (le_bytes n z) = z mod 256 ^ Z.of_nat n.
Proof.
  revert z. induction n as [ | n IH]; intros z.
  - cbn. now rewrite Z.mod_1_r.
  - cbn [le_bytes le_value]. rewrite IH, Z_of_byte_of_Z.
    rewrite Nat2Z.inj_succ, Z.pow_succ_r by lia.
    rewrite Z.rem_mul_r by lia. reflexivity.
Qed.

Lemma sign_bit_cases (s : bool) :
  sign_bit s = 0 /\ s = false \/ sign_bit s = 9223372036854775808 /\ s = true.
Proof. destruct s; [right | left]; split; reflexivity. Qed.

(** Splitting a 64-bit pattern into sign, exponent and fraction fields. *)
Lemma bits_fields (sb hi lo : Z) :
  sb = 0 \/ sb = 9223372036854775808 ->
  0 <= hi < 2048 -> 0 <= lo < 4503599627370496 ->
  let z := sb + (hi * 4503599627370496 + lo) in
  (z / 4503599627370496) mod 2048 = hi /\
  z mod 4503599627370496 = lo /\
  (9223372036854775808 <=? z) = (sb =? 9223372036854775808).
Proof.
  intros Hsb Hhi Hlo z. subst z.
  assert (Hdiv : (sb + (hi * 4503599627370496 + lo)) / 4503599627370496
                 = sb / 4503599627370496 + hi).
  { replace (sb + (hi * 4503599627370496 + lo))
      with (lo + (sb / 4503599627370496 + hi) * 4503599627370496).
    - rewrite Z.div_add by lia. rewrite Z.div_small by lia. lia.
    - destruct Hsb as [-> | ->]; [cbn | change (9223372036854775808 / 4503599627370496) with 2048]; lia. }
  assert (Hmod : (sb + (hi * 4503599627370496 + lo)) mod 4503599627370496 = lo).
  { replace (sb + (hi * 4503599627370496 + lo))
      with (lo + (sb / 4503599627370496 + hi) * 4503599627370496).
    - rewrite Z.mod_add by lia. apply Z.mod_small; lia.
    - destruct Hsb as [-> | ->]; [cbn | change (9223372036854775808 / 4503599627370496) with 2048]; lia. }
  rewrite Hdiv, Hmod. split; [ | split; [reflexivity | ] ].
  - destruct Hsb as [-> | ->].
    + cbn. apply Z.mod_small; lia.
    + change (9223372036854775808 / 4503599627370496) with (1 * 2048).
      rewrite Z.add_comm, Z.mod_add by lia. apply Z.mod_small; lia.
  - destruct Hsb as [-> | ->].
    + destruct (Z.leb_spec 9223372036854775808 (0 + (hi * 4503599627370496 + lo)));
        [lia | reflexivity].
    + destruct (Z.leb_spec 9223372036854775808
                  (9223372036854775808 + (hi * 4503599627370496 + lo)));
        [reflexivity | lia].
Qed.

Lemma SFmag_fields (s : bool) (m : positive) (e : Z) :
  valid_binary (S754_finite s m e) = true ->
  exists hi lo,
    SFmag m e = hi * 4503599627370496 + lo /\
    0 <= hi < 2047 /\ 0 <= lo < 4503599627370496 /\
    (hi = 0 -> lo = Z.pos m /\ e = -1074) /\
    (hi <> 0 -> lo + 4503599627370496 = Z.pos m /\ hi - 1075 = e).
Proof.
  intros Hv. apply valid_finite_bounds in Hv. unfold SFmag.
  destruct (Z.ltb_spec (Z.pos m) 4503599627370496) as [Hs | Hn].
  - exists 0, (Z.pos m). repeat split; try lia.
  - exists (e + 1075), (Z.pos m - 4503599627370496). repeat split; try lia.
Qed.

Lemma bits_double_double_bits (x : gdouble) : bits_double (double_bits x) = x.
Proof.
  rewrite <- (SF2Prim_Prim2SF x) at 2.
  pose proof (Prim2SF_valid x) as Hv.
  unfold double_bits, bits_double.
  destruct (Prim2SF x) as [s | s | | s m e].
  - destruct s; reflexivity.
  - destruct s; reflexivity.
  - reflexivity.
  - destruct (SFmag_fields _ _ _ Hv) as (hi & lo & -> & Hhi & Hlo & H0 & H1).
    destruct (bits_fields (sign_bit s) hi lo) as (-> & -> & ->);
      [destruct s; auto | lia | lia | ].
    replace (sign_bit s =? 9223372036854775808) with s by (destruct s; reflexivity).
    destruct (Z.eqb_spec hi 0) as [Hz | Hz].
    + destruct (H0 Hz) as [-> ->]. reflexivity.
    + destruct (H1 Hz) as [Hm He].
      destruct (Z.eqb_spec hi 2047); [lia | ].
      rewrite Hm, He. reflexivity.
Qed.

Lemma double_bits_range (x : gdouble) :
  0 <= double_bits x < 18446744073709551616.
Proof.
  pose proof (Prim2SF_valid x) as Hv. unfold double_bits.
  destruct (Prim2SF x) as [s | s | | s m e].
  - destruct s; cbn; lia.
  - destruct s; cbn; lia.
  - lia.
  - apply SFmag_bounds in Hv. destruct (sign_bit_cases s) as [[-> _] | [-> _]]; lia.
Qed.

Lemma gdouble_to_bytes_length (d : gdouble) : length (gdouble_to_bytes d) = 8%nat.
Proof. apply le_bytes_length. Qed.

Lemma gdouble_bytes_roundtrip (d : gdouble) :
  gdouble_of_bytes (gdouble_to_bytes d) = d.
Proof.
  unfold gdouble_of_bytes, gdouble_to_bytes.
  rewrite le_value_le_bytes.
  change (256 ^ Z.of_nat 8) with 18446744073709551616.
  rewrite Z.mod_small by apply double_bits_range.
  apply bits_double_double_bits.
Qed.

(** ** Comparisons of [gdouble]s through their keys *)

Lemma SFltb_ord (x y : spec_float) :
  valid_binary x = true -> valid_binary y = true ->
  SFltb x y = true ->
  SFis_nan x = false /\ SFis_nan y = false /\ SFord x < SFord y.
Proof.
  intros Hx Hy. unfold SFltb.
  destruct (SFis_nan x) eqn:Nx; [destruct x; try discriminate Nx; cbn; discriminate |].
  destruct (SFis_nan y) eqn:Ny;
    [destruct y; try discriminate Ny; destruct x; cbn; discriminate |].
  rewrite SFcompare_ord by assumption.
  destruct (Z.compare_spec (SFord x) (SFord y)); try discriminate; intros _; lia.
Qed.

Lemma float_leb_iff (x y : float) :
  (x <=? y)%float = true <->
  SFis_nan (Prim2SF x) = false /\ SFis_nan (Prim2SF y) = false /\
  SFord (Prim2SF x) <= SFord (Prim2SF y).
Proof.
  rewrite leb_spec. split.
  - apply SFleb_ord; apply Prim2SF_valid.
  - intros (Nx & Ny & Hle). unfold SFleb.
    rewrite SFcompare_ord by (assumption || apply Prim2SF_valid).
    destruct (Z.compare_spec (SFord (Prim2SF x)) (SFord (Prim2SF y)));
      [reflexivity | reflexivity | lia].
Qed.

Lemma float_ltb_iff (x y : float) :
  (x <? y)%float = true <->
  SFis_nan (Prim2SF x) = false /\ SFis_nan (Prim2SF y) = false /\
  SFord (Prim2SF x) < SFord (Prim2SF y).
Proof.
  rewrite ltb_spec. split.
  - apply SFltb_ord; apply Prim2SF_valid.
  - intros (Nx & Ny & Hlt). unfold SFltb.
    rewrite SFcompare_ord by (assumption || apply Prim2SF_valid).
    destruct (Z.compare_spec (SFord (Prim2SF x)) (SFord (Prim2SF y)));
      [lia | reflexivity | lia].
Qed.

Lemma float_leb_false (x y : float) :
  (x <=? y)%float = false ->
  SFis_nan (Prim2SF x) = false -> SFis_nan (Prim2SF y) = false ->
  SFord (Prim2SF y) < SFord (Prim2SF x).
Proof.
  intros Hf Nx Ny.
  destruct (Z.lt_ge_cases (SFord (Prim2SF y)) (SFord (Prim2SF x))) as [H | H];
    [exact H | ].
  assert (Ht : (x <=? y)%float = true) by (apply float_leb_iff; repeat split; assumption || lia).
  congruence.
Qed.

Lemma float_ltb_false (x y : float) :
  (x <? y)%float = false ->
  SFis_nan (Prim2SF x) = false -> SFis_nan (Prim2SF y) = false ->
  SFord (Prim2SF y) <= SFord (Prim2SF x).
Proof.
  intros Hf Nx Ny.
  destruct (Z.le_gt_cases (SFord (Prim2SF y)) (SFord (Prim2SF x))) as [H | H];
    [exact H | ].
  assert (Ht : (x <? y)%float = true) by (apply float_ltb_iff; repeat split; assumption || lia).
  congruence.
Qed.

Lemma Prim2SF_zero : Prim2SF 0%float = S754_zero false.
Proof. reflexivity. Qed.

(** A [gdouble] below another one is not above it. *)
Lemma float_ltb_not_leb (x y : float) :
  (x <? y)%float = true -> (y <=? x)%float = false.
Proof.
  intros H. apply float_ltb_iff in H. destruct H as (Nx & Ny & Hlt).
  destruct (y <=? x)%float eqn:E; [ | reflexivity].
  apply float_leb_iff in E. lia.
Qed.

Lemma float_ltb_irrefl (x : float) : (x <? x)%float = false.
Proof.
  destruct (x <? x)%float eqn:E; [ | reflexivity].
  apply float_ltb_iff in E. lia.
Qed.

(** NaN is contagious in a sum. *)
Lemma float_add_nan_l (x y : float) :
  SFis_nan (Prim2SF x) = true -> SFis_nan (Prim2SF (x + y)) = true.
Proof.
  rewrite add_spec. destruct (Prim2SF x); try discriminate. reflexivity.
Qed.

(** Adding to zero keeps the key. *)
Lemma float_add_zero_l (d : float) :
  SFis_nan (Prim2SF d) = false ->
  SFis_nan (Prim2SF (0 + d)) = false /\
  SFord (Prim2SF (0 + d)) = SFord (Prim2SF d).
Proof.
  rewrite add_spec, Prim2SF_zero.
  destruct (Prim2SF d) as [s | s | | s m e]; try discriminate; intros _.
  - destruct s; split; reflexivity.
  - split; reflexivity.
  - split; reflexivity.
Qed.

Lemma SFadd_opp_finite (s : bool) (m : positive) (e : Z) :
  SF64add (S754_finite s m e) (S754_finite (negb s) m e) = S754_zero false.
Proof.
  unfold SF64add. cbn [SFadd]. rewrite Z.min_id.
  replace (cond_Zopp s (Z.pos (fst (shl_align m e e))) +
           cond_Zopp (negb s) (Z.pos (fst (shl_align m e e)))) with 0.
  - reflexivity.
  - generalize (Z.pos (fst (shl_align m e e))). intros z.
    destruct s; cbn [negb cond_Zopp]; lia.
Qed.

(** A finite offset taken forward from zero and back again is zero. *)
Lemma float_add_sub_zero (d : float) :
  SFis_nan (Prim2SF d) = false ->
  - 9218868437227405312 < SFord (Prim2SF d) < 9218868437227405312 ->
  (0 + d + - d)%float = 0%float.
Proof.
  intros Hn Hfin. apply Prim2SF_inj.
  rewrite add_spec, opp_spec, add_spec, Prim2SF_zero.
  destruct (Prim2SF d) as [s | s | | s m e]; try discriminate.
  - destruct s; reflexivity.
  - rewrite SFord_infinity in Hfin. destruct s; cbn [cond_Zopp] in Hfin; lia.
  - cbn [SFadd SFopp]. apply SFadd_opp_finite.
Qed.

(** ** Byte strings *)

Lemma byte_eqb_eq (x y : byte) : Byte.eqb x y = true <-> x = y.
Proof.
  split.
  - apply Byte.byte_dec_bl.
  - apply Byte.byte_dec_lb.
Qed.

Lemma bytes_eqb_eq (l1 l2 : list byte) : bytes_eqb l1 l2 = true <-> l1 = l2.
Proof.
  revert l2. induction l1 as [ | x l1 IH]; intros [ | y l2]; cbn [bytes_eqb];
    try (split; [discriminate | discriminate]); try tauto.
  rewrite andb_true_iff, byte_eqb_eq, IH. split.
  - intros [-> ->]. reflexivity.
  - intros E. injection E as -> ->. split; reflexivity.
Qed.

Lemma c_string_nul_free (l : list byte) : nul_free l -> c_string l = l.
Proof.
  induction 1 as [ | x l Hx _ IH]; cbn [c_string].
  - reflexivity.
  - unfold is_nul. destruct (Byte.eqb x x00) eqn:E.
    + apply byte_eqb_eq in E. contradiction.
    + now rewrite IH.
Qed.

Lemma c_string_terminated (l : list byte) :
  nul_free l -> c_string (l ++ [x00]) = l.
Proof.
  induction 1 as [ | x l Hx _ IH]; cbn [c_string app].
  - reflexivity.
  - unfold is_nul. destruct (Byte.eqb x x00) eqn:E.
    + apply byte_eqb_eq in E. contradiction.
    + now rewrite IH.
Qed.

Lemma c_string_is_nul_free (l : list byte) : nul_free (c_string l).
Proof.
  induction l as [ | x l IH]; cbn [c_string].
  - constructor.
  - unfold is_nul. destruct (Byte.eqb x x00) eqn:E.
    + constructor.
    + constructor; [ | exact IH].
      intros ->. discriminate E.
Qed.

Section Proofs.
Context {C : Collaborators}.

(** ** The list store *)

Lemma tree_iter_eqb_eq (i j : GtkTreeIter) : tree_iter_eqb i j = true <-> i = j.
Proof.
  destruct i as [s1 u1], j as [s2 u2]. unfold tree_iter_eqb. cbn [stamp user_data].
  rewrite andb_true_iff, !Nat.eqb_eq. split.
  - intros [-> ->]. reflexivity.
  - intros E. injection E as -> ->. split; reflexivity.
Qed.

Lemma iter_is_valid_iff (store : GtkListStore) (it : GtkTreeIter) :
  iter_is_valid store it = true <->
  stamp it = ls_stamp store /\ (user_data it < length (ls_rows store))%nat.
Proof.
  unfold iter_is_valid. now rewrite andb_true_iff, Nat.eqb_eq, Nat.ltb_lt.
Qed.

Lemma fold_durations_app (rows : list Keyframe) (row : Keyframe) (total : gdouble) :
  fold_left (fun t r => (t + kf_duration r)%float) (rows ++ [row]) total =
  (fold_left (fun t r => (t + kf_duration r)%float) rows total + kf_duration row)%float.
Proof. now rewrite fold_left_app. Qed.

(** The scan of [animation_keyframe_get_time] adds up every row it passes
    when no row matches. *)
Lemma get_time_scan_no_match (st : nat) (iter : GtkTreeIter)
  (my_rest iter_rest : Z) (rows : list Keyframe) (index : nat) (total : gdouble) :
  (stamp iter <> st \/ (user_data iter < index)%nat
   \/ (index + length rows <= user_data iter)%nat
   \/ my_rest <> iter_rest) ->
  get_time_scan st rows index my_rest iter iter_rest total =
  fold_left (fun t r => (t + kf_duration r)%float) rows total.
Proof.
  revert index total. induction rows as [ | row rows IH]; intros index total H.
  - reflexivity.
  - cbn [get_time_scan fold_left length] in *. unfold iter_memcmp_eq.
    destruct (tree_iter_eqb {| stamp := st; user_data := index |} iter) eqn:E;
      cbn [andb].
    + destruct (Z.eqb_spec my_rest iter_rest) as [Er | Er].
      * apply tree_iter_eqb_eq in E. subst iter. cbn [stamp user_data] in H. lia.
      * apply IH. now do 3 right.
    + apply IH. lia.
Qed.

(** ** C10 *)

(** C10: for a keyframe reference that names no row of the store (a stale
    iterator, for example one taken before a clear),
    [animation_keyframe_get_time] runs off the end of the rows and returns
    the sum of all durations, which is [animation_get_length]. *)
Theorem get_time_of_stale_iter_is_length (self : Animation) (iter : GtkTreeIter)
  (iter_rest my_rest : Z) :
  iter_is_valid (model self) iter = false ->
  animation_keyframe_get_time self iter iter_rest my_rest
  = animation_get_length self.
Proof.
  intros H. unfold animation_keyframe_get_time, animation_get_length.
  apply get_time_scan_no_match.
  destruct (Nat.eq_dec (stamp iter) (ls_stamp (model self))) as [E | E];
    [ | left; exact E].
  right; right; left. cbn [Nat.add].
  destruct (Nat.le_gt_cases (length (ls_rows (model self))) (user_data iter))
    as [Hle | Hlt]; [exact Hle | ].
  assert (iter_is_valid (model self) iter = true)
    by (apply iter_is_valid_iff; split; assumption).
  congruence.
Qed.

(** ** C6 *)

(** C6: when the signature of the file is not [FILE_SIGNATURE],
    [animation_load_file] returns with the animation untouched: the store is
    cleared only after the signature check. *)
Theorem load_bad_signature_keeps_store (self : Animation) (f : ChunkedFile)
  (junk : GtkTreeIter) :
  file_signature f <> FILE_SIGNATURE ->
  animation_load_file self (Some f) junk = (self, [CriticalSignature]).
Proof.
  intros H. unfold animation_load_file, chunked_file_read_signature.
  destruct (bytes_eqb (file_signature f) FILE_SIGNATURE) eqn:E.
  - apply bytes_eqb_eq in E. contradiction.
  - reflexivity.
Qed.

(** ** The loop of [animation_iter_seek_relative] *)

Lemma gtk_tree_model_get_some (store : GtkListStore) (it : GtkTreeIter) :
  iter_is_valid store it = true ->
  exists row, gtk_tree_model_get store it = Some row.
Proof.
  intros H. unfold gtk_tree_model_get. rewrite H.
  apply iter_is_valid_iff in H. destruct H as [_ H].
  destruct (nth_error (ls_rows store) (user_data it)) as [row | ] eqn:E.
  - now exists row.
  - apply nth_error_None in E. lia.
Qed.

Lemma gtk_tree_model_get_valid (store : GtkListStore) (it : GtkTreeIter)
  (row : Keyframe) :
  gtk_tree_model_get store it = Some row -> iter_is_valid store it = true.
Proof.
  unfold gtk_tree_model_get. destruct (iter_is_valid store it); [reflexivity | discriminate].
Qed.

Lemma iter_next_of_valid (store : GtkListStore) (it : GtkTreeIter) :
  iter_is_valid store it = true ->
  gtk_tree_model_iter_next store it =
  (Nat.ltb (S (user_data it)) (length (ls_rows store)),
   {| stamp := stamp it; user_data := S (user_data it) |}).
Proof. intros H. unfold gtk_tree_model_iter_next. now rewrite H. Qed.

(** One turn of the loop stops, skips to the next keyframe, resets to the
    first keyframe, or finds that the iterator names no row. *)
Lemma seek_step_cases (self : Animation) (iter : AnimationIter) :
  (valid iter = false /\ seek_step self iter = Break iter)
  \/ (valid iter = true
      /\ gtk_tree_model_get (model self) (keyframe iter) = None
      /\ seek_step self iter = Fault StaleIter)
  \/ (exists row,
        valid iter = true
        /\ gtk_tree_model_get (model self) (keyframe iter) = Some row
        /\ ((kf_duration row <=? time_after_keyframe iter)%float = true
            /\ seek_step self iter = Continue (skipped self iter row)
            \/ (kf_duration row <=? time_after_keyframe iter)%float = false
               /\ (time_after_keyframe iter <? 0)%float = true
               /\ seek_step self iter = Continue (animation_iter_get_first self iter)
            \/ (kf_duration row <=? time_after_keyframe iter)%float = false
               /\ (time_after_keyframe iter <? 0)%float = false
               /\ seek_step self iter = Break iter)).
Proof.
  unfold seek_step. destruct (valid iter) eqn:V; cbn [negb].
  2: { left. split; reflexivity. }
  right.
  destruct (gtk_tree_model_get (model self) (keyframe iter)) as [row | ] eqn:G.
  2: { left. repeat split. }
  right. exists row. split; [reflexivity | ]. split; [reflexivity | ].
  destruct (kf_duration row <=? time_after_keyframe iter)%float eqn:L.
  - left. split; [reflexivity | ].
    rewrite (iter_next_of_valid _ _ (gtk_tree_model_get_valid _ _ _ G)).
    reflexivity.
  - right. destruct (time_after_keyframe iter <? 0)%float eqn:N.
    + left. repeat split.
    + right. repeat split.
Qed.

Lemma get_first_nonempty (self : Animation) (iter : AnimationIter) :
  ls_rows (model self) <> [] ->
  animation_iter_get_first self iter =
  {| valid := true;
     keyframe := {| stamp := ls_stamp (model self); user_data := 0 |};
     absolute_time := 0%float; time_after_keyframe := 0%float |}.
Proof.
  intros H. unfold animation_iter_get_first, gtk_tree_model_get_iter_first.
  destruct (ls_rows (model self)); [contradiction | reflexivity].
Qed.

Lemma get_first_empty (self : Animation) (iter : AnimationIter) :
  ls_rows (model self) = [] ->
  animation_iter_get_first self iter =
  {| valid := false; keyframe := keyframe iter;
     absolute_time := 0%float; time_after_keyframe := 0%float |}.
Proof.
  intros H. unfold animation_iter_get_first, gtk_tree_model_get_iter_first.
  now rewrite H.
Qed.

Lemma get_first_not_negative (self : Animation) (iter : AnimationIter) :
  not_negative (animation_iter_get_first self iter).
Proof.
  unfold not_negative, animation_iter_get_first.
  destruct (gtk_tree_model_get_iter_first (model self) (keyframe iter)).
  reflexivity.
Qed.

Lemma get_first_remaining (self : Animation) (iter : AnimationIter) :
  (remaining self (animation_iter_get_first self iter)
   <= length (ls_rows (model self)))%nat.
Proof.
  unfold remaining. destruct (valid (animation_iter_get_first self iter)); lia.
Qed.

Lemma skipped_not_negative (self : Animation) (iter : AnimationIter) (row : Keyframe) :
  (kf_duration row <=? time_after_keyframe iter)%float = true ->
  not_negative (skipped self iter row).
Proof. intros H. apply float_sub_not_neg, H. Qed.

Lemma skipped_remaining (self : Animation) (iter : AnimationIter) (row : Keyframe) :
  valid iter = true ->
  gtk_tree_model_get (model self) (keyframe iter) = Some row ->
  (S (remaining self (skipped self iter row)) <= remaining self iter)%nat.
Proof.
  intros V G. apply gtk_tree_model_get_valid, iter_is_valid_iff in G.
  unfold remaining. rewrite V. cbn [valid keyframe skipped user_data].
  destruct (Nat.ltb_spec (S (user_data (keyframe iter)))
              (length (ls_rows (model self)))); lia.
Qed.

Lemma seek_loop_S (self : Animation) (fuel : nat) (iter : AnimationIter) :
  seek_loop (S fuel) self iter =
  match seek_step self iter with
  | Continue iter' => seek_loop fuel self iter'
  | Break iter' => Ok iter'
  | Fault e => Err e
  end.
Proof. reflexivity. Qed.

(** More fuel does not change a finished run. *)
Lemma seek_loop_more_fuel (self : Animation) (fuel fuel' : nat)
  (iter : AnimationIter) :
  (fuel <= fuel')%nat ->
  seek_loop fuel self iter <> Err OutOfFuel ->
  seek_loop fuel' self iter = seek_loop fuel self iter.
Proof.
  revert fuel' iter. induction fuel as [ | fuel IH]; intros fuel' iter Hle Hne.
  - cbn in Hne. congruence.
  - destruct fuel' as [ | fuel']; [lia | ].
    cbn [seek_loop] in *.
    destruct (seek_step self iter) as [iter' | iter' | e]; try reflexivity.
    apply IH; [lia | exact Hne].
Qed.

(** From an offset that is not negative, the loop only skips forward: it is
    done after one turn per remaining row and the final test. *)
Lemma seek_loop_forward_terminates (self : Animation) (fuel : nat)
  (iter : AnimationIter) :
  not_negative iter ->
  (remaining self iter < fuel)%nat ->
  seek_loop fuel self iter <> Err OutOfFuel.
Proof.
  revert iter. induction fuel as [ | fuel IH]; intros iter Hnn Hrem; [lia | ].
  cbn [seek_loop].
  destruct (seek_step_cases self iter)
    as [[V ->] | [(V & G & ->) | (row & V & G & [(L & ->) | [(L & N & ->) | (L & N & ->)]])]];
    try discriminate.
  - apply IH.
    + apply skipped_not_negative, L.
    + pose proof (skipped_remaining self iter row V G). lia.
  - unfold not_negative in Hnn. congruence.
Qed.

Lemma seek_loop_terminates (self : Animation) (iter : AnimationIter) :
  seek_loop (seek_fuel self) self iter <> Err OutOfFuel.
Proof.
  unfold seek_fuel.
  replace (length (ls_rows (model self)) + 2)%nat
    with (S (S (length (ls_rows (model self))))) by lia.
  rewrite seek_loop_S.
  destruct (seek_step_cases self iter)
    as [[V ->] | [(V & G & ->) | (row & V & G & [(L & ->) | [(L & N & ->) | (L & N & ->)]])]];
    try discriminate.
  - apply seek_loop_forward_terminates.
    + apply skipped_not_negative, L.
    + pose proof (skipped_remaining self iter row V G).
      assert (remaining self iter <= length (ls_rows (model self)))%nat
        by (unfold remaining; destruct (valid iter); lia).
      lia.
  - apply seek_loop_forward_terminates.
    + apply get_first_not_negative.
    + pose proof (get_first_remaining self iter). lia.
Qed.

(** ** C5 *)

(** C5: the normalisation loop of [animation_iter_seek_relative] terminates
    for every store (zero durations included) and every delta: one turn of
    the loop stops, skips to the next keyframe or resets to the first one,
    and the loop is over within [seek_fuel self] turns, so that any larger
    bound gives the same result. *)
Theorem seek_relative_terminates (self : Animation) (iter : AnimationIter)
  (delta_time : gdouble) :
  animation_iter_seek_relative self iter delta_time <> Err OutOfFuel
  /\ (forall fuel, (seek_fuel self <= fuel)%nat ->
        seek_loop fuel self
          {| valid := valid iter; keyframe := keyframe iter;
             absolute_time := absolute_time iter;
             time_after_keyframe := (time_after_keyframe iter + delta_time)%float |}
        = animation_iter_seek_relative self iter delta_time)
  /\ (forall it it',
        seek_step self it = Continue it' ->
        (exists row,
           gtk_tree_model_get (model self) (keyframe it) = Some row
           /\ it' = skipped self it row)
        \/ it' = animation_iter_get_first self it).
Proof.
  split; [apply seek_loop_terminates | split].
  - intros fuel Hle. unfold animation_iter_seek_relative.
    apply seek_loop_more_fuel; [exact Hle | apply seek_loop_terminates].
  - intros it it' Hs.
    destruct (seek_step_cases self it)
      as [[V E] | [(V & G & E) | (row & V & G & [(L & E) | [(L & N & E) | (L & N & E)]])]];
      rewrite E in Hs; try discriminate; injection Hs as <-.
    + left. exists row. split; [exact G | reflexivity].
    + right. reflexivity.
Qed.

(** ** Running the model on a store given by its rows *)

Lemma get_at (st : nat) (rows : list Keyframe) (i : nat) :
  gtk_tree_model_get {| ls_stamp := st; ls_rows := rows |}
    {| stamp := st; user_data := i |} = nth_error rows i.
Proof.
  unfold gtk_tree_model_get, iter_is_valid. cbn [stamp user_data ls_stamp ls_rows].
  rewrite Nat.eqb_refl. cbn [andb].
  destruct (Nat.ltb_spec i (length rows)) as [H | H]; [reflexivity | ].
  symmetry. now apply nth_error_None.
Qed.

Lemma next_at (st : nat) (rows : list Keyframe) (i : nat) :
  gtk_tree_model_iter_next {| ls_stamp := st; ls_rows := rows |}
    {| stamp := st; user_data := i |} =
  if Nat.ltb i (length rows) then
    (Nat.ltb (S i) (length rows), {| stamp := st; user_data := S i |})
  else (false, {| stamp := st; user_data := i |}).
Proof.
  unfold gtk_tree_model_iter_next, iter_is_valid.
  cbn [stamp user_data ls_stamp ls_rows].
  rewrite Nat.eqb_refl. reflexivity.
Qed.

Ltac run_model :=
  repeat (cbn; rewrite ?get_at, ?next_at).

(** ** C4 *)

(** C4: in an animation of two keyframes lasting 5.0 seconds each,
    [animation_iter_seek] to 0 gives a valid iterator on keyframe 0 with
    offset 0 (linear alpha 0), to 5.0 one on keyframe 1 with offset 0, and to
    2.5 one on keyframe 0 with offset 2.5, that is linear alpha 0.5 before
    the spline is applied. *)
Theorem seek_absolute_two_keyframes (st : nat) (r0 r1 : Keyframe)
  (iter : AnimationIter) :
  let k0 := set_duration 5%float r0 in
  let k1 := set_duration 5%float r1 in
  let self := animation_of_rows st [k0; k1] in
  let at_0 :=
    {| valid := true; keyframe := {| stamp := st; user_data := 0 |};
       absolute_time := 0%float; time_after_keyframe := 0%float |} in
  let at_5 :=
    {| valid := true; keyframe := {| stamp := st; user_data := 1 |};
       absolute_time := 0%float; time_after_keyframe := 0%float |} in
  let at_2_5 :=
    {| valid := true; keyframe := {| stamp := st; user_data := 0 |};
       absolute_time := 0%float; time_after_keyframe := 2.5%float |} in
  animation_iter_seek self iter 0%float = Ok at_0
  /\ linear_alpha at_0 k0 = 0%float
  /\ animation_iter_seek self iter 5%float = Ok at_5
  /\ linear_alpha at_5 k1 = 0%float
  /\ animation_iter_seek self iter 2.5%float = Ok at_2_5
  /\ linear_alpha at_2_5 k0 = 0.5%float.
Proof.
  intros k0 k1 self at_0 at_5 at_2_5.
  unfold animation_iter_seek, animation_iter_seek_relative, linear_alpha.
  repeat split; run_model; reflexivity.
Qed.

(** ** C1 *)


(** ** C9 *)

(** C9: [animation_iter_read_frame] is not atomic at the end of the
    animation.  When the iterator is valid on entry and the step by
    [1 / frame_rate] leaves it invalid, the call returns FALSE with the start
    state already written to [frame->a] and the iterator already advanced
    and invalid; the iterator of before the call is not restored. *)
Theorem read_frame_not_atomic (self : Animation) (iter iter' : AnimationIter)
  (frame : DeJongPair) (frame_rate : gdouble) (a' : DeJong) :
  valid iter = true ->
  animation_iter_load_dejong self iter (a frame) = Ok a' ->
  animation_iter_seek_relative self iter (1 / frame_rate)%float = Ok iter' ->
  valid iter' = false ->
  animation_iter_read_frame self iter frame frame_rate
  = Ok (false, iter', {| a := a'; b := b frame |})
  /\ iter' <> iter.
Proof.
  intros V La Sk V'. split.
  - unfold animation_iter_read_frame. rewrite V, La. cbn [negb bind].
    rewrite Sk. cbn [bind]. rewrite V'. reflexivity.
  - intros ->. congruence.
Qed.

(** ** Setting and reading rows *)

Lemma update_nth_length (n : nat) (f : Keyframe -> Keyframe) (l : list Keyframe) :
  length (update_nth n f l) = length l.
Proof.
  revert n. induction l as [ | x l IH]; intros [ | n]; cbn [update_nth length];
    try reflexivity.
  now rewrite IH.
Qed.

Lemma nth_error_update_nth (n : nat) (f : Keyframe -> Keyframe) (l : list Keyframe) :
  nth_error (update_nth n f l) n = option_map f (nth_error l n).
Proof.
  revert n. induction l as [ | x l IH]; intros [ | n]; cbn; try reflexivity.
  apply IH.
Qed.

Lemma nth_error_update_nth_other (n m : nat) (f : Keyframe -> Keyframe)
  (l : list Keyframe) :
  n <> m -> nth_error (update_nth n f l) m = nth_error l m.
Proof.
  revert n m. induction l as [ | x l IH]; intros [ | n] [ | m] H; cbn;
    try reflexivity; try contradiction.
  apply IH. congruence.
Qed.

Lemma update_nth_last (f : Keyframe -> Keyframe) (l : list Keyframe) (x : Keyframe) :
  update_nth (length l) f (l ++ [x]) = l ++ [f x].
Proof.
  induction l as [ | y l IH]; cbn [update_nth length app].
  - reflexivity.
  - now rewrite IH.
Qed.

Lemma set_keeps_validity (store : GtkListStore) (it it' : GtkTreeIter)
  (f : Keyframe -> Keyframe) :
  iter_is_valid (gtk_list_store_set store it f) it' = iter_is_valid store it'.
Proof.
  unfold gtk_list_store_set. destruct (iter_is_valid store it); [ | reflexivity].
  unfold iter_is_valid. cbn [ls_stamp ls_rows]. now rewrite update_nth_length.
Qed.

(** Reading back the row that was just set. *)
Lemma get_after_set (store : GtkListStore) (it : GtkTreeIter)
  (f : Keyframe -> Keyframe) :
  gtk_tree_model_get (gtk_list_store_set store it f) it =
  option_map f (gtk_tree_model_get store it).
Proof.
  unfold gtk_tree_model_get. rewrite set_keeps_validity.
  unfold gtk_list_store_set.
  destruct (iter_is_valid store it); [ | reflexivity].
  cbn [ls_rows]. apply nth_error_update_nth.
Qed.

Lemma append_default_rows (st : nat) (rows : list Keyframe) :
  let it := {| stamp := st; user_data := length rows |} in
  animation_keyframe_append_default (animation_of_rows st rows) =
  (animation_of_rows st (rows ++ [default_row it]), it).
Proof.
  intros it. unfold animation_keyframe_append_default, gtk_list_store_append,
    animation_of_rows, gtk_list_store_set, iter_is_valid.
  cbn [model ls_stamp ls_rows stamp user_data].
  rewrite Nat.eqb_refl, length_app. cbn [length andb].
  replace (Nat.ltb (length rows) (length rows + 1)) with true
    by (symmetry; apply Nat.ltb_lt; lia).
  rewrite update_nth_last. reflexivity.
Qed.

Lemma animation_is_of_rows (self : Animation) :
  self = animation_of_rows (ls_stamp (model self)) (ls_rows (model self)).
Proof. destruct self as [[st rows]]. reflexivity. Qed.

(** ** The chunk loop of [animation_load_file] *)

Lemma load_chunk_start (st : LoadState) (data : list byte) :
  load_chunk st {| chunk_type := CHUNK_KEYFRAME_START; chunk_data := data |} =
  let (self', iter') := animation_keyframe_append_default (ld_self st) in
  {| ld_self := self'; ld_iter := iter'; ld_log := ld_log st |}.
Proof. reflexivity. Qed.

Lemma load_chunk_end (st : LoadState) (data : list byte) :
  load_chunk st {| chunk_type := CHUNK_KEYFRAME_END; chunk_data := data |} = st.
Proof. reflexivity. Qed.

Lemma load_chunk_params (st : LoadState) (data : list byte) :
  load_chunk st {| chunk_type := CHUNK_DE_JONG_PARAMS; chunk_data := data |} =
  load_set st (set_params (Some (data ++ [x00]))).
Proof. reflexivity. Qed.

Lemma load_chunk_thumbnail (st : LoadState) (data : list byte) :
  load_chunk st {| chunk_type := CHUNK_THUMBNAIL; chunk_data := data |} =
  load_set st (set_thumbnail (gdk_pixbuf_loader data)).
Proof. reflexivity. Qed.

Lemma load_chunk_duration (st : LoadState) (data : list byte) :
  load_chunk st {| chunk_type := CHUNK_DURATION; chunk_data := data |} =
  if Nat.eqb (length data) 8 then
    load_set st (set_duration (gdouble_of_bytes data))
  else load_warn st (WarnDurationSize (length data)).
Proof. reflexivity. Qed.

Lemma load_chunk_spline (st : LoadState) (data : list byte) :
  load_chunk st {| chunk_type := CHUNK_SPLINE; chunk_data := data |} =
  load_set st (set_spline (Some (spline_unserialize data))).
Proof. reflexivity. Qed.

Lemma load_chunk_unknown (st : LoadState) (c : Chunk) :
  recognized_chunk (chunk_type c) = false ->
  load_chunk st c = load_warn st (WarnUnknownType (chunk_type c)).
Proof.
  unfold recognized_chunk. rewrite !orb_false_iff.
  intros (((((H1 & H2) & H3) & H4) & H5) & H6).
  unfold load_chunk. now rewrite H1, H2, H3, H4, H5, H6.
Qed.

Lemma load_chunks_cons (st : LoadState) (c : Chunk) (rest : list Chunk) :
  load_chunks st (c :: rest) = load_chunks (load_chunk st c) rest.
Proof. reflexivity. Qed.

Lemma load_chunks_app (st : LoadState) (pre post : list Chunk) :
  load_chunks st (pre ++ post) = load_chunks (load_chunks st pre) post.
Proof. apply fold_left_app. Qed.

Lemma load_chunk_with_log (l : list LogEntry) (st : LoadState) (c : Chunk) :
  load_chunk (with_log l st) c = with_log l (load_chunk st c).
Proof.
  unfold load_chunk, with_log, load_set, load_warn.
  cbn [ld_self ld_iter ld_log].
  repeat match goal with
         | |- context [if ?x then _ else _] => destruct x
         | |- context [let (_, _) := ?x in _] => destruct x
         end; cbn [ld_self ld_iter ld_log]; rewrite ?app_assoc; reflexivity.
Qed.

Lemma load_chunks_with_log (l : list LogEntry) (chunks : list Chunk)
  (st : LoadState) :
  load_chunks (with_log l st) chunks = with_log l (load_chunks st chunks).
Proof.
  revert st. induction chunks as [ | c chunks IH]; intros st.
  - reflexivity.
  - rewrite !load_chunks_cons, load_chunk_with_log. apply IH.
Qed.

Lemma load_chunks_split_log (st : LoadState) (chunks : list Chunk) :
  load_chunks st chunks
  = with_log (ld_log st) (load_chunks (no_log st) chunks).
Proof.
  rewrite <- load_chunks_with_log. f_equal.
  unfold with_log, no_log. cbn [ld_self ld_iter ld_log].
  rewrite app_nil_r. now destruct st.
Qed.

Lemma load_chunks_after_warn (st : LoadState) (w : LogEntry) (chunks : list Chunk) :
  load_chunks (load_warn st w) chunks
  = with_log (ld_log st ++ [w]) (load_chunks (no_log st) chunks).
Proof.
  rewrite <- load_chunks_with_log. f_equal.
  unfold with_log, no_log, load_warn. cbn [ld_self ld_iter ld_log].
  now rewrite app_nil_r.
Qed.

(** ** C8 *)

(** C8: a chunk whose type is none of the six recognized ones does not stop
    [animation_load_file]: the animation loaded is the one the file without
    that chunk gives, every chunk after it being applied as usual, and the
    only trace of the chunk is the warning about its type in the log. *)
Theorem unknown_chunk_is_skipped (self : Animation) (pre post : list Chunk)
  (c : Chunk) (junk : GtkTreeIter) :
  recognized_chunk (chunk_type c) = false ->
  let file :=
    {| file_signature := FILE_SIGNATURE; file_chunks := pre ++ c :: post |} in
  let file' :=
    {| file_signature := FILE_SIGNATURE; file_chunks := pre ++ post |} in
  fst (animation_load_file self (Some file) junk)
  = fst (animation_load_file self (Some file') junk)
  /\ exists l1 l2,
       snd (animation_load_file self (Some file) junk)
       = l1 ++ WarnUnknownType (chunk_type c) :: l2
       /\ snd (animation_load_file self (Some file') junk) = l1 ++ l2.
Proof.
  intros Hc file file'. unfold animation_load_file.
  replace (chunked_file_read_signature file FILE_SIGNATURE) with true by reflexivity.
  replace (chunked_file_read_signature file' FILE_SIGNATURE) with true by reflexivity.
  cbn [negb fst snd file_chunks file file'].
  set (st0 := {| ld_self := animation_clear self; ld_iter := junk; ld_log := [] |}).
  rewrite !load_chunks_app, load_chunks_cons, (load_chunk_unknown _ _ Hc).
  rewrite load_chunks_after_warn, (load_chunks_split_log (load_chunks st0 pre) post).
  cbn [with_log ld_self ld_log]. split; [reflexivity | ].
  exists (ld_log (load_chunks st0 pre)),
    (ld_log (load_chunks (no_log (load_chunks st0 pre)) post)).
  split; [ | reflexivity].
  now rewrite <- app_assoc.
Qed.

(** ** C7 *)

Lemma get_after_start (st : LoadState) :
  let st' :=
    load_chunk st {| chunk_type := CHUNK_KEYFRAME_START; chunk_data := [] |} in
  gtk_tree_model_get (model (ld_self st')) (ld_iter st')
  = Some (default_row (ld_iter st')).
Proof.
  rewrite load_chunk_start, (animation_is_of_rows (ld_self st)).
  rewrite append_default_rows. cbn [ld_self ld_iter animation_of_rows model].
  rewrite get_at, nth_error_app2, Nat.sub_diag by lia. reflexivity.
Qed.

(** C7: a duration chunk whose payload is not 8 bytes long is not fatal:
    [animation_load_file] logs a warning, leaves the animation as it is, so
    that a keyframe just started keeps its default duration of 5.0, and goes
    on with the chunks that follow; a duration chunk of exactly 8 bytes sets
    the duration of the current keyframe to the [gdouble] those bytes hold. *)
Theorem duration_chunk_tolerance (st : LoadState) (bad good : list byte)
  (row : Keyframe) (rest : list Chunk) :
  length bad <> 8%nat ->
  length good = 8%nat ->
  gtk_tree_model_get (model (ld_self st)) (ld_iter st) = Some row ->
  let start := {| chunk_type := CHUNK_KEYFRAME_START; chunk_data := [] |} in
  let cb := {| chunk_type := CHUNK_DURATION; chunk_data := bad |} in
  let cg := {| chunk_type := CHUNK_DURATION; chunk_data := good |} in
  load_chunk st cb = load_warn st (WarnDurationSize (length bad))
  /\ load_chunks st (cb :: rest)
     = load_chunks (load_warn st (WarnDurationSize (length bad))) rest
  /\ (let st' := load_chunks st [start; cb] in
      exists r,
        gtk_tree_model_get (model (ld_self st')) (ld_iter st') = Some r
        /\ kf_duration r = 5%float
        /\ ld_log st' = ld_log st ++ [WarnDurationSize (length bad)])
  /\ gtk_tree_model_get (model (ld_self (load_chunk st cg))) (ld_iter st)
     = Some (set_duration (gdouble_of_bytes good) row)
  /\ ld_iter (load_chunk st cg) = ld_iter st
  /\ ld_log (load_chunk st cg) = ld_log st
  /\ ld_log (load_chunk st cb) = ld_log st ++ [WarnDurationSize (length bad)]
  /\ ld_self (load_chunk st cb) = ld_self st
  /\ ld_iter (load_chunk st cb) = ld_iter st
  /\ gtk_tree_model_get (model (ld_self (load_chunk st cb))) (ld_iter st)
     = Some row.
Proof.
  intros Hbad Hgood Hrow start cb cg.
  assert (Eb : load_chunk st cb = load_warn st (WarnDurationSize (length bad))).
  { unfold cb. rewrite load_chunk_duration.
    destruct (Nat.eqb_spec (length bad) 8); [contradiction | reflexivity]. }
  assert (Eg : load_chunk st cg = load_set st (set_duration (gdouble_of_bytes good))).
  { unfold cg. rewrite load_chunk_duration, Hgood. reflexivity. }
  split; [exact Eb | ]. split; [now rewrite load_chunks_cons, Eb | ].
  split.
  - cbn zeta. unfold load_chunks. cbn [fold_left].
    fold start.
    assert (Eb' : forall s, load_chunk s cb = load_warn s (WarnDurationSize (length bad))).
    { intros s. unfold cb. rewrite load_chunk_duration.
      destruct (Nat.eqb_spec (length bad) 8); [contradiction | reflexivity]. }
    rewrite Eb'. cbn [load_warn ld_self ld_iter ld_log].
    exists (default_row (ld_iter (load_chunk st start))).
    split; [apply get_after_start | ]. split; [reflexivity | ].
    unfold start. rewrite load_chunk_start.
    destruct (animation_keyframe_append_default (ld_self st)). reflexivity.
  - rewrite Eg, Eb. cbn [load_set load_warn ld_self ld_iter ld_log model].
    rewrite get_after_set, Hrow, (gtk_tree_model_get_valid _ _ _ Hrow).
    repeat split.
Qed.

(** ** Saving, then loading *)

Lemma save_keyframe_chunks (f : ChunkedFile) (row : Keyframe) :
  save_keyframe f row =
  {| file_signature := file_signature f;
     file_chunks := file_chunks f ++ keyframe_chunks row |}.
Proof.
  unfold save_keyframe, keyframe_chunks, chunked_file_write_chunk.
  destruct (kf_params row); destruct (kf_thumbnail row) as [p | ];
    try destruct (gdk_pixbuf_save_to_buffer p); destruct (kf_spline row);
    cbn [file_signature file_chunks app]; rewrite <- ?app_assoc; reflexivity.
Qed.

Lemma save_keyframes_chunks (rows : list Keyframe) (f : ChunkedFile) :
  fold_left save_keyframe rows f =
  {| file_signature := file_signature f;
     file_chunks := file_chunks f ++ flat_map keyframe_chunks rows |}.
Proof.
  revert f. induction rows as [ | row rows IH]; intros f.
  - cbn. rewrite app_nil_r. now destruct f.
  - cbn [fold_left flat_map]. rewrite IH, save_keyframe_chunks.
    cbn [file_signature file_chunks]. now rewrite app_assoc.
Qed.

Lemma load_set_defining (st : nat) (rows : list Keyframe) (row : Keyframe)
  (f : Keyframe -> Keyframe) :
  load_set (defining st rows row) f = defining st rows (f row).
Proof.
  unfold load_set, defining, gtk_list_store_set, iter_is_valid, animation_of_rows.
  cbn [ld_self ld_iter ld_log model ls_stamp ls_rows stamp user_data].
  rewrite Nat.eqb_refl, length_app. cbn [length andb].
  replace (Nat.ltb (length rows) (length rows + 1)) with true
    by (symmetry; apply Nat.ltb_lt; lia).
  now rewrite update_nth_last.
Qed.

Lemma load_saved_keyframe (st : nat) (rows : list Keyframe) (row : Keyframe)
  (it : GtkTreeIter) :
  (forall s, spline_unserialize (spline_serialize s) = s) ->
  savable row ->
  load_chunks
    {| ld_self := animation_of_rows st rows; ld_iter := it; ld_log := [] |}
    (keyframe_chunks row)
  = defining st rows (reloaded_row {| stamp := st; user_data := length rows |} row).
Proof.
  intros Hspl [Hnul Hsp]. unfold keyframe_chunks.
  rewrite load_chunks_app. cbn [load_chunks fold_left].
  rewrite load_chunk_start. cbn [ld_self ld_log].
  rewrite append_default_rows. fold (defining st rows (default_row {| stamp := st; user_data := length rows |})).
  unfold reloaded_row, reloaded_thumbnail.
  destruct row as [thumb params duration spline kiter].
  cbn [kf_params kf_thumbnail kf_duration kf_spline] in *.
  destruct spline as [spline | ]; [ | contradiction].
  assert (Hp : forall p, params = Some p -> c_string (c_string p ++ [x00]) = p).
  { intros p E. rewrite (c_string_nul_free p) by (apply Hnul, E).
    apply c_string_terminated, Hnul, E. }
  destruct params as [p | ]; destruct thumb as [pb | ];
    try destruct (gdk_pixbuf_save_to_buffer pb) as [buffer | ];
    cbn [app];
    repeat (rewrite load_chunks_cons;
            rewrite ?load_chunk_params, ?load_chunk_thumbnail, ?load_chunk_duration,
              ?load_chunk_spline, ?load_chunk_end, ?gdouble_to_bytes_length;
            cbn [Nat.eqb];
            rewrite ?load_set_defining);
    unfold load_chunks; cbn [fold_left];
    unfold default_row, set_params, set_thumbnail, set_duration, set_spline;
    cbn [kf_thumbnail kf_params kf_duration kf_spline kf_iter option_map];
    rewrite ?Hspl, ?gdouble_bytes_roundtrip, ?(Hp p eq_refl); reflexivity.
Qed.

Lemma load_saved_keyframes (st : nat) (rows : list Keyframe) :
  (forall s, spline_unserialize (spline_serialize s) = s) ->
  Forall savable rows ->
  forall (done : list Keyframe) (it : GtkTreeIter),
  exists (rows' : list Keyframe) (it' : GtkTreeIter),
    load_chunks
      {| ld_self := animation_of_rows st done; ld_iter := it; ld_log := [] |}
      (flat_map keyframe_chunks rows)
    = {| ld_self := animation_of_rows st (done ++ rows'); ld_iter := it';
         ld_log := [] |}
    /\ map kept_columns rows' = map kept_columns rows
    /\ map kf_thumbnail rows' = map reloaded_thumbnail rows.
Proof.
  intros Hspl Hall. induction Hall as [ | row rows Hrow _ IH]; intros done it.
  - exists [], it. cbn. rewrite app_nil_r. repeat split.
  - cbn [flat_map]. rewrite load_chunks_app.
    rewrite (load_saved_keyframe st done row it Hspl Hrow).
    unfold defining.
    destruct (IH (done ++ [reloaded_row {| stamp := st; user_data := length done |} row])
                {| stamp := st; user_data := length done |})
      as (rows' & it' & E & Hk & Ht).
    rewrite E.
    exists (reloaded_row {| stamp := st; user_data := length done |} row :: rows'), it'.
    rewrite <- app_assoc. cbn [app map].
    split; [reflexivity | ]. split.
    + now rewrite Hk.
    + now rewrite Ht.
Qed.

(** ** C2 *)

(** C2: saving an animation and loading the file into an animation gives a
    store with as many keyframes, each with the same duration (the same
    [gdouble]), the same parameter bytes and the same spline, provided the
    parameter strings are C strings, every keyframe has a spline and the
    spline module reads back what it writes.  A thumbnail comes back as the
    decoding of its encoding, whatever that is. *)
Theorem save_load_round_trip (self target : Animation) (junk : GtkTreeIter) :
  (forall s, spline_unserialize (spline_serialize s) = s) ->
  Forall savable (ls_rows (model self)) ->
  let loaded := animation_load_file target (animation_save_file self true) junk in
  length (ls_rows (model (fst loaded))) = length (ls_rows (model self))
  /\ map kept_columns (ls_rows (model (fst loaded)))
     = map kept_columns (ls_rows (model self))
  /\ map kf_thumbnail (ls_rows (model (fst loaded)))
     = map reloaded_thumbnail (ls_rows (model self))
  /\ snd loaded = [].
Proof.
  intros Hspl Hall loaded. unfold loaded, animation_save_file, animation_load_file.
  rewrite save_keyframes_chunks.
  unfold chunked_file_read_signature, chunked_file_write_signature, chunked_file_new.
  cbn [file_signature file_chunks app].
  replace (bytes_eqb FILE_SIGNATURE FILE_SIGNATURE) with true by reflexivity.
  cbn [negb].
  change (animation_clear target)
    with (animation_of_rows (S (ls_stamp (model target))) []).
  destruct (load_saved_keyframes (S (ls_stamp (model target))) _ Hspl Hall [] junk)
    as (rows' & it' & E & Hk & Ht).
  rewrite E. cbn [ld_self ld_log fst snd animation_of_rows model ls_rows app].
  split; [ | repeat split; assumption].
  rewrite <- (length_map kept_columns rows'), Hk. apply length_map.
Qed.

(** ** Seeking forward and back *)

Lemma seek_step_break (self : Animation) (it : AnimationIter) (row : Keyframe) :
  valid it = true ->
  gtk_tree_model_get (model self) (keyframe it) = Some row ->
  (kf_duration row <=? time_after_keyframe it)%float = false ->
  (time_after_keyframe it <? 0)%float = false ->
  seek_step self it = Break it.
Proof. intros V G L N. unfold seek_step. now rewrite V, G, L, N. Qed.

Lemma seek_step_reset (self : Animation) (it : AnimationIter) (row : Keyframe) :
  valid it = true ->
  gtk_tree_model_get (model self) (keyframe it) = Some row ->
  (kf_duration row <=? time_after_keyframe it)%float = false ->
  (time_after_keyframe it <? 0)%float = true ->
  seek_step self it = Continue (animation_iter_get_first self it).
Proof. intros V G L N. unfold seek_step. now rewrite V, G, L, N. Qed.

(** Where the loop stops with a valid iterator, the offset lies inside the
    keyframe. *)
Lemma seek_loop_stops_inside (self : Animation) (fuel : nat)
  (it it' : AnimationIter) :
  seek_loop fuel self it = Ok it' ->
  valid it' = true ->
  exists row,
    gtk_tree_model_get (model self) (keyframe it') = Some row
    /\ (kf_duration row <=? time_after_keyframe it')%float = false
    /\ (time_after_keyframe it' <? 0)%float = false.
Proof.
  revert it. induction fuel as [ | fuel IH]; intros it H V'; [discriminate | ].
  rewrite seek_loop_S in H.
  destruct (seek_step_cases self it)
    as [[V E] | [(V & G & E) | (row & V & G & [(L & E) | [(L & N & E) | (L & N & E)]])]];
    rewrite E in H; try discriminate.
  - injection H as <-. congruence.
  - apply (IH _ H V').
  - apply (IH _ H V').
  - injection H as <-. exists row. repeat split; assumption.
Qed.

(** From an offset that is not negative, the loop never moves back. *)
Lemma seek_loop_moves_forward (self : Animation) (fuel : nat)
  (it it' : AnimationIter) :
  not_negative it ->
  seek_loop fuel self it = Ok it' ->
  it' = it \/ (user_data (keyframe it) < user_data (keyframe it'))%nat.
Proof.
  revert it. induction fuel as [ | fuel IH]; intros it Hnn H; [discriminate | ].
  rewrite seek_loop_S in H.
  destruct (seek_step_cases self it)
    as [[V E] | [(V & G & E) | (row & V & G & [(L & E) | [(L & N & E) | (L & N & E)]])]];
    rewrite E in H; try discriminate.
  - injection H as <-. now left.
  - right.
    destruct (IH _ (skipped_not_negative self it row L) H) as [-> | Hlt];
      cbn [skipped keyframe user_data] in *; lia.
  - unfold not_negative in Hnn. congruence.
  - injection H as <-. now left.
Qed.

Lemma SFord_bound (x : spec_float) :
  valid_binary x = true ->
  - 9218868437227405312 <= SFord x <= 9218868437227405312.
Proof.
  intros Hv. destruct x as [s | s | | s m e].
  - rewrite SFord_zero. lia.
  - rewrite SFord_infinity. destruct s; cbn [cond_Zopp]; lia.
  - cbn [SFord]. lia.
  - rewrite SFord_finite. pose proof (SFmag_bounds _ _ _ Hv) as B. clear Hv.
    revert B. generalize (SFmag m e). intros z B.
    destruct s; cbn [cond_Zopp]; lia.
Qed.

Lemma get_first_row (self : Animation) (row0 : Keyframe) (rest : list Keyframe) :
  ls_rows (model self) = row0 :: rest ->
  gtk_tree_model_get (model self)
    {| stamp := ls_stamp (model self); user_data := 0 |} = Some row0.
Proof.
  intros H. rewrite (animation_is_of_rows self). cbn [animation_of_rows model ls_stamp].
  rewrite get_at, H. reflexivity.
Qed.

(** At offset zero of a first keyframe of positive duration the loop
    stops. *)
Lemma seek_loop_at_start (self : Animation) (fuel : nat) (row0 : Keyframe)
  (rest : list Keyframe) (t : gdouble) :
  ls_rows (model self) = row0 :: rest ->
  (0 <? kf_duration row0)%float = true ->
  let start :=
    {| valid := true;
       keyframe := {| stamp := ls_stamp (model self); user_data := 0 |};
       absolute_time := t; time_after_keyframe := 0%float |} in
  seek_loop (S fuel) self start = Ok start.
Proof.
  intros Hrows Hpos start. rewrite seek_loop_S.
  rewrite (seek_step_break self start row0); try reflexivity.
  - apply (get_first_row _ _ _ Hrows).
  - apply float_ltb_not_leb, Hpos.
Qed.

(** ** C3 *)

(** C3 (as the code behaves): take an animation whose first keyframe has a
    positive duration and a delta [d >= 0].  Seek from the beginning by [d];
    if the iterator is still valid, and either it is still on keyframe 0 or
    adding [- d] to its offset gives a negative offset, then seeking by
    [- d] leaves it valid on keyframe 0 with [time_after_keyframe] equal to
    0: the loop resets to the first keyframe, or the offset cancels
    exactly. *)
Theorem seek_forward_then_back (self : Animation) (iter it1 : AnimationIter)
  (d : gdouble) (row0 : Keyframe) (rest : list Keyframe) :
  ls_rows (model self) = row0 :: rest ->
  (0 <? kf_duration row0)%float = true ->
  (0 <=? d)%float = true ->
  animation_iter_seek_relative self (animation_iter_get_first self iter) d
  = Ok it1 ->
  valid it1 = true ->
  (keyframe it1 = {| stamp := ls_stamp (model self); user_data := 0 |}
   \/ (time_after_keyframe it1 + - d <? 0)%float = true) ->
  animation_iter_seek_relative self it1 (- d)%float
  = Ok {| valid := true;
          keyframe := {| stamp := ls_stamp (model self); user_data := 0 |};
          absolute_time := 0%float; time_after_keyframe := 0%float |}.
Proof.
  intros Hrows Hpos Hd Hfwd V1 Hcase.
  assert (Hne : ls_rows (model self) <> []) by (rewrite Hrows; discriminate).
  assert (Hfuel : seek_fuel self = S (S (S (length rest)))).
  { unfold seek_fuel. rewrite Hrows. cbn [length]. lia. }
  unfold animation_iter_seek_relative in *.
  rewrite (get_first_nonempty self iter Hne) in Hfwd.
  cbn [valid keyframe absolute_time time_after_keyframe] in Hfwd.
  rewrite Hfuel in *.
  destruct (seek_loop_stops_inside _ _ _ _ Hfwd V1) as (rowk & Gk & Lk & Nk).
  apply float_leb_iff in Hd. destruct Hd as (_ & Nd & Od).
  rewrite Prim2SF_zero, SFord_zero in Od.
  destruct (time_after_keyframe it1 + - d <? 0)%float eqn:N2.
  - (* the offset goes negative: the loop resets *)
    clear Hcase.
    assert (L2 : (kf_duration rowk <=? time_after_keyframe it1 + - d)%float = false).
    { destruct (kf_duration rowk <=? time_after_keyframe it1 + - d)%float eqn:L2;
        [exfalso | reflexivity].
      apply float_leb_iff in L2. destruct L2 as (Ndk & Nt2 & O2).
      apply float_ltb_iff in N2. destruct N2 as (_ & _ & O3).
      rewrite Prim2SF_zero, SFord_zero in O3.
      assert (Nt1 : SFis_nan (Prim2SF (time_after_keyframe it1)) = false).
      { destruct (SFis_nan (Prim2SF (time_after_keyframe it1))) eqn:E;
          [ | reflexivity].
        apply (float_add_nan_l _ (- d)%float) in E. congruence. }
      pose proof (float_ltb_false _ _ Nk Nt1 eq_refl) as O4.
      rewrite Prim2SF_zero, SFord_zero in O4.
      pose proof (float_leb_false _ _ Lk Ndk Nt1) as O5.
      lia. }
    rewrite seek_loop_S.
    rewrite (seek_step_reset self _ rowk); cbn [valid keyframe time_after_keyframe];
      try assumption.
    rewrite (get_first_nonempty self _ Hne).
    apply (seek_loop_at_start self _ row0 rest 0%float Hrows Hpos).
  - (* the iterator stayed on keyframe 0: the offset cancels *)
    destruct Hcase as [Hk | Hc]; [ | congruence].
    destruct (float_add_zero_l d Nd) as (N0d & O0d).
    rewrite seek_loop_S in Hfwd.
    match type of Hfwd with
    | context [seek_step self ?s] => set (s0 := s) in *
    end.
    destruct (seek_step_cases self s0)
      as [[V E] | [(V & G & E) | (row & V & G & [(L & E) | [(L & N & E) | (L & N & E)]])]];
      rewrite E in Hfwd; try discriminate.
    + (* a skip would leave keyframe 0 for good *)
      exfalso.
      destruct (seek_loop_moves_forward self _ _ _
                  (skipped_not_negative self s0 row L) Hfwd) as [-> | Hlt].
      * cbn [skipped keyframe] in Hk. discriminate Hk.
      * rewrite Hk in Hlt. cbn [skipped keyframe user_data] in Hlt. lia.
    + (* no reset: the offset is not negative *)
      exfalso. apply float_ltb_iff in N. destruct N as (_ & _ & O).
      rewrite Prim2SF_zero, SFord_zero in O.
      unfold s0 in O. cbn [time_after_keyframe] in O. lia.
    + injection Hfwd as <-.
      unfold s0 in G, L |- *. cbn [valid keyframe absolute_time time_after_keyframe] in *.
      rewrite (get_first_row _ _ _ Hrows) in G. injection G as <-.
      apply float_ltb_iff in Hpos. destruct Hpos as (_ & Nd0 & Opos).
      pose proof (float_leb_false _ _ L Nd0 N0d) as O1.
      pose proof (SFord_bound _ (Prim2SF_valid (kf_duration row0))) as B.
      rewrite float_add_sub_zero by (assumption || lia).
      apply (seek_loop_at_start self _ row0 rest 0%float Hrows).
      apply float_ltb_iff. repeat split; assumption.
Qed.

End Proofs.

(* ================================================================== *)
(** * Part 3: further properties of the code *)
(* ================================================================== *)

Section Further.
Context {C : Collaborators}.

(** ** Keyframe start times *)

Lemma get_time_scan_match (st : nat) (iter : GtkTreeIter) (same_rest : Z)
  (rows : list Keyframe) (index : nat) (total : gdouble) :
  stamp iter = st ->
  (index <= user_data iter < index + length rows)%nat ->
  get_time_scan st rows index same_rest iter same_rest total =
  fold_left (fun t r => (t + kf_duration r)%float)
    (firstn (user_data iter - index) rows) total.
Proof.
  intros Hst. revert index total.
  induction rows as [ | row rows IH]; intros index total H; cbn [length] in H.
  - lia.
  - cbn [get_time_scan]. unfold iter_memcmp_eq. rewrite Z.eqb_refl, andb_true_r.
    destruct (tree_iter_eqb {| stamp := st; user_data := index |} iter) eqn:E.
    + apply tree_iter_eqb_eq in E. subst iter. cbn [user_data].
      now rewrite Nat.sub_diag.
    + assert (user_data iter <> index).
      { intros Hu. destruct iter as [s u]. cbn [stamp user_data] in *. subst.
        unfold tree_iter_eqb in E. cbn [stamp user_data] in E.
        now rewrite !Nat.eqb_refl in E. }
      rewrite IH by lia.
      replace (user_data iter - index)%nat with (S (user_data iter - S index)) by lia.
      reflexivity.
Qed.

(** X1: [animation_keyframe_get_time] compares whole iterators with
    [memcmp].  For an iterator that names a row, when its bytes outside the
    stamp and [user_data] equal those of the local [my_iter], the result is
    the sum, from 0 and in store order, of the durations of the rows before
    that row, and the first keyframe starts at 0; when those bytes differ no
    row compares equal and the result is the length of the animation. *)
Theorem get_time_is_durations_before (self : Animation) (iter : GtkTreeIter)
  (iter_rest my_rest : Z) :
  iter_is_valid (model self) iter = true ->
  animation_keyframe_get_time self iter iter_rest my_rest
  = (if my_rest =? iter_rest
     then durations_before (ls_rows (model self)) (user_data iter)
     else animation_get_length self)
  /\ (user_data iter = 0%nat -> my_rest = iter_rest ->
      animation_keyframe_get_time self iter iter_rest my_rest = 0%float).
Proof.
  intros H. apply iter_is_valid_iff in H. destruct H as [Hs Hu].
  assert (E : animation_keyframe_get_time self iter iter_rest iter_rest
              = durations_before (ls_rows (model self)) (user_data iter)).
  { unfold animation_keyframe_get_time, durations_before.
    rewrite get_time_scan_match by (assumption || lia).
    now rewrite Nat.sub_0_r. }
  split.
  - destruct (Z.eqb_spec my_rest iter_rest) as [-> | N]; [exact E | ].
    unfold animation_keyframe_get_time, animation_get_length.
    apply get_time_scan_no_match. now do 3 right.
  - intros H0 ->. rewrite E, H0. reflexivity.
Qed.

(** ** Appending keyframes *)

Lemma get_in_prefix (st : nat) (rows more : list Keyframe) (it : GtkTreeIter) :
  iter_is_valid {| ls_stamp := st; ls_rows := rows |} it = true ->
  gtk_tree_model_get {| ls_stamp := st; ls_rows := rows ++ more |} it
  = gtk_tree_model_get {| ls_stamp := st; ls_rows := rows |} it.
Proof.
  intros H. unfold gtk_tree_model_get. rewrite H.
  apply iter_is_valid_iff in H. cbn [ls_stamp ls_rows] in H. destruct H as [Hs Hu].
  replace (iter_is_valid {| ls_stamp := st; ls_rows := rows ++ more |} it) with true.
  - cbn [ls_rows]. now apply nth_error_app1.
  - symmetry. apply iter_is_valid_iff. cbn [ls_stamp ls_rows].
    rewrite length_app. split; [assumption | lia].
Qed.

(** X2: [animation_keyframe_append_default] adds one row at the end, with
    the default duration 5.0, the smooth template spline and its own
    iterator, and returns the iterator of that row.  The length grows by
    5.0 and the rows that were there read as before.
    [animation_keyframe_get_time] of the new keyframe is what was the length
    of the animation when the bytes of the iterator outside the stamp and
    [user_data] equal those of the local [my_iter] of that function, and the
    new length otherwise. *)
Theorem append_default_extends (self : Animation) :
  let self' := fst (animation_keyframe_append_default self) in
  let it := snd (animation_keyframe_append_default self) in
  ls_rows (model self') = ls_rows (model self) ++ [default_row it]
  /\ gtk_tree_model_get (model self') it = Some (default_row it)
  /\ (forall iter_rest my_rest,
        animation_keyframe_get_time self' it iter_rest my_rest
        = if my_rest =? iter_rest then animation_get_length self
          else (animation_get_length self + 5)%float)
  /\ animation_get_length self' = (animation_get_length self + 5)%float
  /\ (forall it0,
        iter_is_valid (model self) it0 = true ->
        gtk_tree_model_get (model self') it0
        = gtk_tree_model_get (model self) it0).
Proof.
  intros self' it0. subst self' it0.
  pose proof (append_default_rows (ls_stamp (model self)) (ls_rows (model self))) as E.
  cbn zeta in E. rewrite <- animation_is_of_rows in E. rewrite E. clear E.
  cbn [fst snd].
  set (st := ls_stamp (model self)). set (rows := ls_rows (model self)).
  set (it := {| stamp := st; user_data := length rows |}).
  cbn [animation_of_rows model ls_rows].
  split; [reflexivity | ]. split.
  { unfold it. rewrite get_at, nth_error_app2, Nat.sub_diag by lia. reflexivity. }
  split.
  { intros iter_rest my_rest.
    unfold animation_keyframe_get_time, animation_get_length.
    cbn [animation_of_rows model ls_stamp ls_rows]. fold st rows.
    destruct (Z.eqb_spec my_rest iter_rest) as [-> | N].
    - rewrite get_time_scan_match.
      + unfold it. cbn [user_data]. rewrite Nat.sub_0_r.
        rewrite firstn_app, Nat.sub_diag, firstn_all. cbn [firstn].
        now rewrite app_nil_r.
      + reflexivity.
      + unfold it. cbn [user_data]. rewrite length_app. cbn [length]. lia.
    - rewrite get_time_scan_no_match by now do 3 right.
      apply fold_durations_app. }
  split.
  { unfold animation_get_length. cbn [animation_of_rows model ls_rows]. fold rows.
    rewrite fold_durations_app. reflexivity. }
  intros it0 H.
  rewrite (animation_is_of_rows self) in H |- *.
  cbn [animation_of_rows model] in H |- *.
  apply get_in_prefix, H.
Qed.

(** ** Seeking is safe and normalises the iterator *)

Lemma skipped_wf (self : Animation) (iter : AnimationIter) (row : Keyframe) :
  gtk_tree_model_get (model self) (keyframe iter) = Some row ->
  iter_wf self (skipped self iter row).
Proof.
  intros G V. apply gtk_tree_model_get_valid, iter_is_valid_iff in G.
  destruct G as [Hs Hu]. cbn [skipped valid keyframe] in *.
  apply iter_is_valid_iff. cbn [stamp user_data].
  apply Nat.ltb_lt in V. split; assumption.
Qed.

Lemma get_first_wf (self : Animation) (iter : AnimationIter) :
  iter_wf self (animation_iter_get_first self iter).
Proof.
  destruct (ls_rows (model self)) as [ | row0 rest] eqn:E.
  - rewrite (get_first_empty self iter E). intros V. discriminate V.
  - rewrite (get_first_nonempty self iter) by (rewrite E; discriminate).
    intros _. cbn [keyframe]. apply iter_is_valid_iff. cbn [stamp user_data].
    rewrite E. cbn [length]. split; [reflexivity | lia].
Qed.

(** What a run of the loop keeps: the iterator names a row when it is valid,
    and [absolute_time] is what it was or 0. *)
Lemma seek_loop_keeps (self : Animation) (fuel : nat) (it : AnimationIter) :
  iter_wf self it ->
  seek_loop fuel self it <> Err StaleIter
  /\ (forall it',
        seek_loop fuel self it = Ok it' ->
        iter_wf self it'
        /\ (absolute_time it' = absolute_time it \/ absolute_time it' = 0%float)).
Proof.
  revert it. induction fuel as [ | fuel IH]; intros it Hwf.
  - cbn. split; [discriminate | intros it' H; discriminate H].
  - rewrite seek_loop_S.
    destruct (seek_step_cases self it)
      as [[V E] | [(V & G & E) | (row & V & G & [(L & E) | [(L & N & E) | (L & N & E)]])]];
      rewrite E.
    + split; [discriminate | ]. intros it' H. injection H as <-.
      split; [exact Hwf | now left].
    + exfalso. specialize (Hwf V).
      destruct (gtk_tree_model_get_some _ _ Hwf) as [row Hrow]. congruence.
    + destruct (IH _ (skipped_wf self it row G)) as [Hne Hok].
      split; [exact Hne | ]. intros it' H.
      destruct (Hok it' H) as [Hwf' Habs]. split; [exact Hwf' | exact Habs].
    + destruct (IH _ (get_first_wf self it)) as [Hne Hok].
      split; [exact Hne | ]. intros it' H.
      destruct (Hok it' H) as [Hwf' Habs]. split; [exact Hwf' | ].
      right. destruct Habs as [-> | ->]; [ | reflexivity].
      unfold animation_iter_get_first.
      destruct (gtk_tree_model_get_iter_first (model self) (keyframe it)).
      reflexivity.
    + split; [discriminate | ]. intros it' H. injection H as <-.
      split; [exact Hwf | now left].
Qed.

Lemma result_cases (A : Type) (r : result A) :
  r <> Err OutOfFuel -> r <> Err StaleIter -> exists x, r = Ok x.
Proof.
  destruct r as [x | [ | ]]; intros H1 H2; try contradiction.
  now exists x.
Qed.

(** X3: on an iterator that is invalid or names a row of the model,
    [animation_iter_seek_relative] reads no stale row and returns an
    iterator that again is invalid or names a row; [absolute_time] comes
    back unchanged or, after a reset, as 0: a seek never advances it. *)
Theorem seek_relative_is_safe (self : Animation) (iter : AnimationIter)
  (delta_time : gdouble) :
  iter_wf self iter ->
  exists iter',
    animation_iter_seek_relative self iter delta_time = Ok iter'
    /\ iter_wf self iter'
    /\ (absolute_time iter' = absolute_time iter
        \/ absolute_time iter' = 0%float).
Proof.
  intros Hwf. unfold animation_iter_seek_relative.
  set (it0 := {| valid := valid iter; keyframe := keyframe iter;
                 absolute_time := absolute_time iter;
                 time_after_keyframe := (time_after_keyframe iter + delta_time)%float |}).
  assert (Hwf0 : iter_wf self it0) by exact Hwf.
  destruct (seek_loop_keeps self (seek_fuel self) it0 Hwf0) as [Hne Hok].
  destruct (result_cases _ _ (seek_loop_terminates self it0) Hne) as [it' E].
  exists it'. split; [exact E | ]. apply (Hok it' E).
Qed.

(** X4: [animation_iter_seek] always returns an iterator, whatever the
    animation and the time.  Its [absolute_time] is 0, not the time sought;
    when it is valid it names a row, [time_after_keyframe] is not negative
    and the duration of that row is not at or below it. *)
Theorem seek_gives_normalised_iter (self : Animation) (iter : AnimationIter)
  (t : gdouble) :
  exists iter',
    animation_iter_seek self iter t = Ok iter'
    /\ absolute_time iter' = 0%float
    /\ (valid iter' = true ->
        exists row,
          gtk_tree_model_get (model self) (keyframe iter') = Some row
          /\ (kf_duration row <=? time_after_keyframe iter')%float = false
          /\ (time_after_keyframe iter' <? 0)%float = false).
Proof.
  unfold animation_iter_seek, animation_iter_seek_relative.
  set (first := animation_iter_get_first self iter).
  set (it0 := {| valid := valid first; keyframe := keyframe first;
                 absolute_time := absolute_time first;
                 time_after_keyframe := (time_after_keyframe first + t)%float |}).
  assert (Hwf0 : iter_wf self it0) by exact (get_first_wf self iter).
  destruct (seek_loop_keeps self (seek_fuel self) it0 Hwf0) as [Hne Hok].
  destruct (result_cases _ _ (seek_loop_terminates self it0) Hne) as [it' E].
  exists it'. split; [exact E | ]. split.
  - destruct (Hok it' E) as [_ [Habs | Habs]]; [ | exact Habs].
    rewrite Habs. unfold it0, first, animation_iter_get_first. cbn [absolute_time].
    destruct (gtk_tree_model_get_iter_first (model self) (keyframe iter)).
    reflexivity.
  - intros V. apply (seek_loop_stops_inside self _ _ _ E V).
Qed.

(** ** Seeking backwards *)

(** X5: a backward step that takes the offset below zero inside the current
    keyframe does not go to the previous keyframe: whatever the keyframe and
    however small the step, the iterator comes back on the first keyframe
    with offset 0 (the first keyframe having a positive duration). *)
Theorem backward_seek_resets_to_start (self : Animation) (iter : AnimationIter)
  (delta_time : gdouble) (row row0 : Keyframe) (rest : list Keyframe) :
  valid iter = true ->
  gtk_tree_model_get (model self) (keyframe iter) = Some row ->
  (kf_duration row <=? time_after_keyframe iter + delta_time)%float = false ->
  (time_after_keyframe iter + delta_time <? 0)%float = true ->
  ls_rows (model self) = row0 :: rest ->
  (0 <? kf_duration row0)%float = true ->
  animation_iter_seek_relative self iter delta_time
  = Ok {| valid := true;
          keyframe := {| stamp := ls_stamp (model self); user_data := 0 |};
          absolute_time := 0%float; time_after_keyframe := 0%float |}.
Proof.
  intros V G L N Hrows Hpos.
  assert (Hne : ls_rows (model self) <> []) by (rewrite Hrows; discriminate).
  unfold animation_iter_seek_relative, seek_fuel.
  rewrite Hrows. cbn [length].
  replace (S (length rest) + 2)%nat with (S (S (S (length rest)))) by lia.
  rewrite seek_loop_S.
  rewrite (seek_step_reset self _ row); cbn [valid keyframe time_after_keyframe];
    try assumption.
  rewrite (get_first_nonempty self _ Hne).
  apply (seek_loop_at_start self _ row0 rest 0%float Hrows Hpos).
Qed.

(** ** Seeking forwards *)

Lemma seek_loop_is_walk (self : Animation) (suffix : list Keyframe) :
  forall (prefix : list Keyframe) (abs t : gdouble) (fuel : nat),
    ls_rows (model self) = prefix ++ suffix ->
    suffix <> [] ->
    (t <? 0)%float = false ->
    (length suffix < fuel)%nat ->
    seek_loop fuel self
      {| valid := true;
         keyframe := {| stamp := ls_stamp (model self); user_data := length prefix |};
         absolute_time := abs; time_after_keyframe := t |}
    = Ok (walk (ls_stamp (model self)) suffix (length prefix) abs t).
Proof.
  induction suffix as [ | row rest IH]; intros prefix abs t fuel Hrows Hne Ht Hfuel;
    [contradiction | ].
  destruct fuel as [ | fuel]; [lia | ]. cbn [length] in Hfuel.
  assert (G : gtk_tree_model_get (model self)
                {| stamp := ls_stamp (model self); user_data := length prefix |}
              = Some row).
  { rewrite (animation_is_of_rows self). cbn [animation_of_rows model ls_stamp].
    rewrite get_at, Hrows, nth_error_app2, Nat.sub_diag by lia. reflexivity. }
  rewrite seek_loop_S. cbn [walk].
  unfold seek_step. cbn [valid keyframe time_after_keyframe absolute_time negb].
  rewrite G.
  destruct (kf_duration row <=? t)%float eqn:L.
  - rewrite (iter_next_of_valid _ _ (gtk_tree_model_get_valid _ _ _ G)).
    cbn [stamp user_data]. rewrite Hrows, length_app. cbn [length].
    destruct rest as [ | row' rest'].
    + cbn [length walk].
      replace (Nat.ltb (S (length prefix)) (length prefix + 1)) with false
        by (symmetry; apply Nat.ltb_ge; lia).
      destruct fuel as [ | fuel]; [lia | ]. reflexivity.
    + replace (Nat.ltb (S (length prefix)) (length prefix + S (length (row' :: rest'))))
        with true by (symmetry; apply Nat.ltb_lt; cbn [length]; lia).
      replace (S (length prefix)) with (length (prefix ++ [row]))
        by (rewrite length_app; cbn [length]; lia).
      apply IH.
      * rewrite Hrows, <- app_assoc. reflexivity.
      * discriminate.
      * apply float_sub_not_neg, L.
      * lia.
  - rewrite Ht. reflexivity.
Qed.

Lemma float_add_zero_not_negative (t : gdouble) :
  (t <? 0)%float = false -> (0 + t <? 0)%float = false.
Proof.
  intros H. destruct (0 + t <? 0)%float eqn:E; [ | reflexivity].
  apply float_ltb_iff in E. destruct E as (N & _ & O).
  rewrite Prim2SF_zero, SFord_zero in O.
  destruct (SFis_nan (Prim2SF t)) eqn:Nt.
  - rewrite add_spec, Prim2SF_zero in N.
    destruct (Prim2SF t); try discriminate Nt. discriminate N.
  - destruct (float_add_zero_l t Nt) as [_ Eo].
    pose proof (float_ltb_false _ _ H Nt eq_refl) as O'.
    rewrite Prim2SF_zero, SFord_zero in O'. lia.
Qed.

(** X6: for a time that is not negative, [animation_iter_seek] on an
    animation with keyframes is one forward walk over its rows: keyframes
    whose duration is at or below the remaining offset are skipped, their
    durations taken off the offset one after the other, and no reset
    happens; past the last keyframe the iterator is invalid and points one
    past the end. *)
Theorem seek_is_forward_walk (self : Animation) (iter : AnimationIter)
  (t : gdouble) :
  ls_rows (model self) <> [] ->
  (t <? 0)%float = false ->
  animation_iter_seek self iter t
  = Ok (walk (ls_stamp (model self)) (ls_rows (model self)) 0 0%float (0 + t)%float).
Proof.
  intros Hne Ht. unfold animation_iter_seek, animation_iter_seek_relative.
  rewrite (get_first_nonempty self iter Hne).
  cbn [valid keyframe absolute_time time_after_keyframe].
  apply (seek_loop_is_walk self (ls_rows (model self)) [] 0%float (0 + t)%float).
  - reflexivity.
  - exact Hne.
  - apply float_add_zero_not_negative, Ht.
  - unfold seek_fuel. lia.
Qed.

(** ** Clearing *)

(** X7: after [animation_clear] the animation has length 0, no iterator
    names a row, every keyframe reference has start time 0, and a seek to
    any time gives an invalid iterator. *)
Theorem clear_empties (self : Animation) (iter : AnimationIter) (t : gdouble) :
  let cleared := animation_clear self in
  animation_get_length cleared = 0%float
  /\ (forall it,
        gtk_tree_model_get (model cleared) it = None
        /\ (forall iter_rest my_rest,
              animation_keyframe_get_time cleared it iter_rest my_rest
              = 0%float))
  /\ animation_iter_seek cleared iter t
     = Ok {| valid := false; keyframe := keyframe iter;
             absolute_time := 0%float; time_after_keyframe := (0 + t)%float |}.
Proof.
  cbn zeta. split; [reflexivity | ]. split.
  - intros it. split; [ | intros iter_rest my_rest; reflexivity].
    unfold gtk_tree_model_get, iter_is_valid, animation_clear, gtk_list_store_clear.
    cbn [model ls_rows ls_stamp length].
    destruct (Nat.eqb (stamp it) (S (ls_stamp (model self)))); reflexivity.
  - reflexivity.
Qed.

(** ** Reading frames at the end *)

(** X8: the end of the animation is final for [animation_iter_read_frame]:
    on an invalid iterator every further call returns FALSE and changes
    neither the iterator nor the frame. *)
Theorem read_frames_after_end (n : nat) (self : Animation) (iter : AnimationIter)
  (frame : DeJongPair) (frame_rate : gdouble) :
  valid iter = false ->
  read_frames n self iter frame frame_rate = Ok (repeat false n, iter, frame).
Proof.
  intros V. induction n as [ | n IH]; cbn [read_frames repeat].
  - reflexivity.
  - unfold animation_iter_read_frame. rewrite V. cbn [negb bind].
    rewrite IH. reflexivity.
Qed.

(** ** Storing and loading parameters *)

(** X9: [animation_keyframe_append] adds one row holding the thumbnail of
    the [DeJong] object, its parameter string as a C string, the default
    duration and spline and its own iterator; loading that keyframe into
    an object hands the stored string to [de_jong_load_string]. *)
Theorem append_then_load_dejong (self : Animation) (dejong d : DeJong) :
  let self' := animation_keyframe_append self dejong in
  let it := {| stamp := ls_stamp (model self);
               user_data := length (ls_rows (model self)) |} in
  let params := c_string (de_jong_save_string dejong) in
  ls_rows (model self')
  = ls_rows (model self)
    ++ [{| kf_thumbnail := Some (de_jong_make_thumbnail dejong 128 128);
           kf_params := Some params;
           kf_duration := 5%float;
           kf_spline := Some spline_template_smooth;
           kf_iter := Some it |}]
  /\ ls_stamp (model self') = ls_stamp (model self)
  /\ animation_keyframe_load_dejong self' it d
     = Ok (de_jong_load_string d (Some params)).
Proof.
  intros self' it params. subst self'.
  unfold animation_keyframe_append.
  pose proof (append_default_rows (ls_stamp (model self)) (ls_rows (model self))) as E.
  cbn zeta in E. rewrite <- animation_is_of_rows in E. rewrite E. clear E.
  fold it. unfold animation_keyframe_store_dejong.
  cbn [animation_of_rows model].
  assert (Es : gtk_list_store_set
                 {| ls_stamp := ls_stamp (model self);
                    ls_rows := ls_rows (model self) ++ [default_row it] |} it
                 (fun r => set_params (Some (de_jong_save_string dejong))
                             (set_thumbnail (Some (de_jong_make_thumbnail dejong 128 128)) r))
               = {| ls_stamp := ls_stamp (model self);
                    ls_rows := ls_rows (model self)
                      ++ [set_params (Some (de_jong_save_string dejong))
                            (set_thumbnail (Some (de_jong_make_thumbnail dejong 128 128))
                               (default_row it))] |}).
  { unfold gtk_list_store_set, iter_is_valid, it.
    cbn [ls_stamp ls_rows stamp user_data].
    rewrite Nat.eqb_refl, length_app. cbn [length andb].
    replace (Nat.ltb (length (ls_rows (model self))) (length (ls_rows (model self)) + 1))
      with true by (symmetry; apply Nat.ltb_lt; lia).
    now rewrite update_nth_last. }
  rewrite Es. cbn [model ls_rows ls_stamp].
  split; [reflexivity | ]. split; [reflexivity | ].
  unfold animation_keyframe_load_dejong. cbn [model]. unfold it.
  rewrite get_at, nth_error_app2, Nat.sub_diag by lia. reflexivity.
Qed.

(** ** What loading keeps true *)

Lemma set_rows_length (store : GtkListStore) (it : GtkTreeIter)
  (f : Keyframe -> Keyframe) :
  length (ls_rows (gtk_list_store_set store it f)) = length (ls_rows store).
Proof.
  unfold gtk_list_store_set. destruct (iter_is_valid store it); [ | reflexivity].
  cbn [ls_rows]. apply update_nth_length.
Qed.

Lemma set_stamp (store : GtkListStore) (it : GtkTreeIter)
  (f : Keyframe -> Keyframe) :
  ls_stamp (gtk_list_store_set store it f) = ls_stamp store.
Proof.
  unfold gtk_list_store_set. destruct (iter_is_valid store it); reflexivity.
Qed.

Lemma update_nth_Forall (P : Keyframe -> Prop) (f : Keyframe -> Keyframe)
  (n : nat) (l : list Keyframe) :
  (forall r, P r -> P (f r)) -> Forall P l -> Forall P (update_nth n f l).
Proof.
  intros Hf H. revert n. induction H as [ | x l Hx Hl IH]; intros [ | n];
    cbn [update_nth]; constructor; auto.
Qed.

Lemma set_Forall (P : Keyframe -> Prop) (store : GtkListStore)
  (it : GtkTreeIter) (f : Keyframe -> Keyframe) :
  (forall r, P r -> P (f r)) ->
  Forall P (ls_rows store) -> Forall P (ls_rows (gtk_list_store_set store it f)).
Proof.
  intros Hf H. unfold gtk_list_store_set.
  destruct (iter_is_valid store it); [ | exact H].
  cbn [ls_rows]. now apply update_nth_Forall.
Qed.

Lemma nth_error_update_nth_inv (n i : nat) (f : Keyframe -> Keyframe)
  (l : list Keyframe) (row : Keyframe) :
  nth_error (update_nth n f l) i = Some row ->
  exists r, nth_error l i = Some r /\ (row = r \/ row = f r).
Proof.
  intros H. destruct (Nat.eq_dec n i) as [-> | Hn].
  - rewrite nth_error_update_nth in H.
    destruct (nth_error l i) as [r | ]; [ | discriminate].
    injection H as <-. exists r. split; [reflexivity | now right].
  - rewrite (nth_error_update_nth_other n i f l Hn) in H.
    exists row. split; [exact H | now left].
Qed.

Lemma set_rows_name_themselves (store : GtkListStore) (it : GtkTreeIter)
  (f : Keyframe -> Keyframe) :
  (forall r, kf_iter (f r) = kf_iter r) ->
  rows_name_themselves (ls_stamp store) (ls_rows store) ->
  rows_name_themselves (ls_stamp (gtk_list_store_set store it f))
    (ls_rows (gtk_list_store_set store it f)).
Proof.
  intros Hf H. rewrite set_stamp. unfold gtk_list_store_set.
  destruct (iter_is_valid store it); [ | exact H].
  cbn [ls_rows]. intros i row Hrow.
  destruct (nth_error_update_nth_inv _ _ _ _ _ Hrow) as (r & Hr & [-> | ->]).
  - apply (H i r Hr).
  - rewrite Hf. apply (H i r Hr).
Qed.

Lemma load_set_invariant (st : LoadState) (f : Keyframe -> Keyframe) :
  (forall r, savable r -> savable (f r)) ->
  (forall r, kf_iter (f r) = kf_iter r) ->
  load_invariant st -> load_invariant (load_set st f).
Proof.
  intros Hs Hi [H1 H2]. unfold load_invariant, load_set. cbn [ld_self model].
  split.
  - now apply set_Forall.
  - now apply set_rows_name_themselves.
Qed.

Lemma default_row_savable (it : GtkTreeIter) : savable (default_row it).
Proof.
  split; cbn [default_row kf_params kf_spline]; [intros p E | ]; discriminate.
Qed.

Lemma load_chunk_invariant (st : LoadState) (c : Chunk) :
  load_invariant st -> load_invariant (load_chunk st c).
Proof.
  intros Hinv. unfold load_chunk.
  destruct (chunk_type c =? CHUNK_KEYFRAME_START).
  { destruct Hinv as [H1 H2].
    rewrite (animation_is_of_rows (ld_self st)), append_default_rows.
    unfold load_invariant. cbn [ld_self animation_of_rows model ls_rows ls_stamp].
    split.
    - apply Forall_app. split; [exact H1 | ].
      constructor; [apply default_row_savable | constructor].
    - intros i row Hrow.
      destruct (Nat.lt_ge_cases i (length (ls_rows (model (ld_self st))))) as [Hi | Hi].
      + rewrite nth_error_app1 in Hrow by exact Hi. apply (H2 i row Hrow).
      + rewrite nth_error_app2 in Hrow by exact Hi.
        destruct (i - length (ls_rows (model (ld_self st))))%nat as [ | k] eqn:Ek.
        * cbn in Hrow. injection Hrow as <-. cbn [default_row kf_iter].
          do 2 f_equal. lia.
        * cbn in Hrow. destruct k; discriminate Hrow. }
  destruct (chunk_type c =? CHUNK_KEYFRAME_END); [exact Hinv | ].
  destruct (chunk_type c =? CHUNK_DE_JONG_PARAMS).
  { apply load_set_invariant; [ | reflexivity | exact Hinv].
    intros r [_ Hsp]. split; [ | exact Hsp].
    cbn [set_params kf_params option_map]. intros p E. injection E as <-.
    apply c_string_is_nul_free. }
  destruct (chunk_type c =? CHUNK_THUMBNAIL).
  { apply load_set_invariant; [ | reflexivity | exact Hinv]. intros r H. exact H. }
  destruct (chunk_type c =? CHUNK_DURATION).
  { destruct (Nat.eqb (length (chunk_data c)) 8); [ | exact Hinv].
    apply load_set_invariant; [ | reflexivity | exact Hinv]. intros r H. exact H. }
  destruct (chunk_type c =? CHUNK_SPLINE); [ | exact Hinv].
  apply load_set_invariant; [ | reflexivity | exact Hinv].
  intros r [Hp _]. split; [exact Hp | ]. cbn [set_spline kf_spline]. discriminate.
Qed.

Lemma load_chunks_invariant (chunks : list Chunk) (st : LoadState) :
  load_invariant st -> load_invariant (load_chunks st chunks).
Proof.
  revert st. induction chunks as [ | c chunks IH]; intros st H.
  - exact H.
  - rewrite load_chunks_cons. apply IH, load_chunk_invariant, H.
Qed.

Lemma loaded_invariant (self : Animation) (chunks : list Chunk)
  (junk : GtkTreeIter) :
  let loaded :=
    fst (animation_load_file self
           (Some {| file_signature := FILE_SIGNATURE; file_chunks := chunks |}) junk) in
  Forall savable (ls_rows (model loaded))
  /\ rows_name_themselves (ls_stamp (model loaded)) (ls_rows (model loaded)).
Proof.
  unfold animation_load_file.
  replace (chunked_file_read_signature _ FILE_SIGNATURE) with true by reflexivity.
  cbn [negb fst file_chunks].
  apply load_chunks_invariant. split.
  - constructor.
  - intros i row H. destruct i; discriminate H.
Qed.

(** X10: whatever chunks a file with the right signature holds, every row of
    the animation loaded from it has a spline, a parameter string without NUL
    (or none) and, in its iterator column, the iterator that names it. *)
Theorem loaded_rows_are_complete (self : Animation) (chunks : list Chunk)
  (junk : GtkTreeIter) :
  let loaded :=
    fst (animation_load_file self
           (Some {| file_signature := FILE_SIGNATURE; file_chunks := chunks |}) junk) in
  forall i row,
    nth_error (ls_rows (model loaded)) i = Some row ->
    kf_spline row <> None
    /\ (forall p, kf_params row = Some p -> nul_free p)
    /\ kf_iter row = Some {| stamp := ls_stamp (model loaded); user_data := i |}
    /\ gtk_tree_model_get (model loaded)
         {| stamp := ls_stamp (model loaded); user_data := i |} = Some row.
Proof.
  intros loaded i row Hrow.
  destruct (loaded_invariant self chunks junk) as [Hs Hn]. fold loaded in Hs, Hn.
  pose proof (proj1 (Forall_forall _ _) Hs row (nth_error_In _ _ Hrow)) as [Hp Hsp].
  split; [exact Hsp | ]. split; [exact Hp | ]. split; [apply (Hn i row Hrow) | ].
  rewrite (animation_is_of_rows loaded) at 1. cbn [animation_of_rows model].
  rewrite get_at. exact Hrow.
Qed.

(** The rows and stamp of the store while chunks are read. *)
Lemma load_chunk_rows_count (st : LoadState) (c : Chunk) :
  length (ls_rows (model (ld_self (load_chunk st c))))
  = (length (ls_rows (model (ld_self st)))
     + (if (chunk_type c =? CHUNK_KEYFRAME_START)%Z then 1 else 0))%nat.
Proof.
  unfold load_chunk.
  destruct (chunk_type c =? CHUNK_KEYFRAME_START).
  { rewrite (animation_is_of_rows (ld_self st)), append_default_rows.
    cbn [ld_self animation_of_rows model ls_rows]. apply length_app. }
  rewrite Nat.add_0_r.
  repeat match goal with
         | |- context [if ?x then _ else _] => destruct x
         end;
    unfold load_set, load_warn; cbn [ld_self model];
    rewrite ?set_rows_length; reflexivity.
Qed.

Lemma load_chunks_rows_count (chunks : list Chunk) (st : LoadState) :
  length (ls_rows (model (ld_self (load_chunks st chunks))))
  = (length (ls_rows (model (ld_self st)))
     + count_type CHUNK_KEYFRAME_START chunks)%nat.
Proof.
  revert st. induction chunks as [ | c chunks IH]; intros st.
  - cbn. lia.
  - rewrite load_chunks_cons, IH, load_chunk_rows_count.
    unfold count_type. cbn [filter].
    destruct (chunk_type c =? CHUNK_KEYFRAME_START); cbn [length]; lia.
Qed.

(** X11: loading replaces the store: whatever the animation held before, it
    has afterwards one keyframe per keyframe-start chunk of the file, and no
    other chunk adds or removes a row. *)
Theorem load_one_row_per_start (self : Animation) (chunks : list Chunk)
  (junk : GtkTreeIter) :
  length
    (ls_rows
       (model
          (fst (animation_load_file self
                  (Some {| file_signature := FILE_SIGNATURE; file_chunks := chunks |})
                  junk))))
  = count_type CHUNK_KEYFRAME_START chunks.
Proof.
  unfold animation_load_file.
  replace (chunked_file_read_signature _ FILE_SIGNATURE) with true by reflexivity.
  cbn [negb fst file_chunks].
  rewrite load_chunks_rows_count. reflexivity.
Qed.

(** ** Saving and loading any store *)

Lemma c_string_idempotent_terminated (l : list byte) :
  c_string (c_string l ++ [x00]) = c_string l.
Proof. apply c_string_terminated, c_string_is_nul_free. Qed.

Lemma load_saved_keyframe_any (st : nat) (rows : list Keyframe) (row : Keyframe)
  (it : GtkTreeIter) :
  load_chunks
    {| ld_self := animation_of_rows st rows; ld_iter := it; ld_log := [] |}
    (keyframe_chunks row)
  = defining st rows (resaved_row {| stamp := st; user_data := length rows |} row).
Proof.
  unfold keyframe_chunks.
  rewrite load_chunks_app. cbn [load_chunks fold_left].
  rewrite load_chunk_start. cbn [ld_self ld_log].
  rewrite append_default_rows.
  fold (defining st rows (default_row {| stamp := st; user_data := length rows |})).
  unfold resaved_row, reloaded_thumbnail.
  destruct row as [thumb params duration spline kiter].
  cbn [kf_params kf_thumbnail kf_duration kf_spline].
  destruct params as [p | ]; destruct thumb as [pb | ];
    try destruct (gdk_pixbuf_save_to_buffer pb) as [buffer | ];
    destruct spline as [spline | ];
    cbn [app];
    repeat (rewrite load_chunks_cons;
            rewrite ?load_chunk_params, ?load_chunk_thumbnail, ?load_chunk_duration,
              ?load_chunk_spline, ?load_chunk_end, ?gdouble_to_bytes_length;
            cbn [Nat.eqb];
            rewrite ?load_set_defining);
    unfold load_chunks; cbn [fold_left];
    unfold default_row, set_params, set_thumbnail, set_duration, set_spline;
    cbn [kf_thumbnail kf_params kf_duration kf_spline kf_iter option_map];
    rewrite ?gdouble_bytes_roundtrip, ?c_string_idempotent_terminated; reflexivity.
Qed.

Lemma load_saved_keyframes_any (st : nat) (rows : list Keyframe) :
  forall (done : list Keyframe) (it : GtkTreeIter),
  exists it' : GtkTreeIter,
    load_chunks
      {| ld_self := animation_of_rows st done; ld_iter := it; ld_log := [] |}
      (flat_map keyframe_chunks rows)
    = {| ld_self := animation_of_rows st (done ++ resaved_rows st (length done) rows);
         ld_iter := it'; ld_log := [] |}.
Proof.
  induction rows as [ | row rows IH]; intros done it.
  - exists it. cbn. now rewrite app_nil_r.
  - cbn [flat_map resaved_rows]. rewrite load_chunks_app, load_saved_keyframe_any.
    unfold defining.
    destruct (IH (done ++ [resaved_row {| stamp := st; user_data := length done |} row])
                {| stamp := st; user_data := length done |}) as [it' E].
    exists it'. rewrite E, <- app_assoc, length_app. cbn [length app].
    now rewrite Nat.add_1_r.
Qed.

Lemma resaved_rows_durations (st index : nat) (rows : list Keyframe) :
  map kf_duration (resaved_rows st index rows) = map kf_duration rows.
Proof.
  revert index. induction rows as [ | row rows IH]; intros index;
    cbn [resaved_rows map].
  - reflexivity.
  - now rewrite IH.
Qed.

(** X12: saving any animation and loading the file gives exactly this: a
    store under a new stamp with one row per row saved, in order, no message
    logged; each row has the same duration, its parameter string cut at the
    first NUL, its spline passed through the spline module (the template
    when it had none), its thumbnail encoded and decoded, and its own
    iterator.  Durations come back as the same [gdouble] with no condition
    on the store. *)
Theorem save_then_load_any (self target : Animation) (junk : GtkTreeIter) :
  let st := S (ls_stamp (model target)) in
  animation_load_file target (animation_save_file self true) junk
  = (animation_of_rows st (resaved_rows st 0 (ls_rows (model self))), [])
  /\ map kf_duration (resaved_rows st 0 (ls_rows (model self)))
     = map kf_duration (ls_rows (model self)).
Proof.
  intros st. split; [ | apply resaved_rows_durations].
  unfold animation_save_file, animation_load_file.
  rewrite save_keyframes_chunks.
  unfold chunked_file_read_signature, chunked_file_write_signature, chunked_file_new.
  cbn [file_signature file_chunks app].
  replace (bytes_eqb FILE_SIGNATURE FILE_SIGNATURE) with true by reflexivity.
  cbn [negb].
  change (animation_clear target) with (animation_of_rows st []).
  destruct (load_saved_keyframes_any st (ls_rows (model self)) [] junk) as [it' E].
  rewrite E. reflexivity.
Qed.

(** X13: an animation that was loaded from a file is kept by a further save
    and load cycle: the durations, parameter strings and splines of its rows
    come back as they are, whatever chunks the first file held (the spline
    module reading back what it writes). *)
Theorem reload_is_stable (self other : Animation) (chunks : list Chunk)
  (junk junk' : GtkTreeIter) :
  (forall s, spline_unserialize (spline_serialize s) = s) ->
  let loaded :=
    fst (animation_load_file self
           (Some {| file_signature := FILE_SIGNATURE; file_chunks := chunks |}) junk) in
  let again := fst (animation_load_file other (animation_save_file loaded true) junk') in
  map kept_columns (ls_rows (model again))
  = map kept_columns (ls_rows (model loaded)).
Proof.
  intros Hspl loaded again.
  destruct (loaded_invariant self chunks junk) as [Hs _]. fold loaded in Hs.
  unfold again, animation_save_file, animation_load_file.
  rewrite save_keyframes_chunks.
  unfold chunked_file_read_signature, chunked_file_write_signature, chunked_file_new.
  cbn [file_signature file_chunks app].
  replace (bytes_eqb FILE_SIGNATURE FILE_SIGNATURE) with true by reflexivity.
  cbn [negb].
  change (animation_clear other)
    with (animation_of_rows (S (ls_stamp (model other))) []).
  destruct (load_saved_keyframes (S (ls_stamp (model other))) _ Hspl Hs [] junk')
    as (rows' & it' & E & Hk & _).
  rewrite E. cbn [ld_self fst animation_of_rows model ls_rows app]. exact Hk.
Qed.

(** ** The file that is written *)

Lemma count_type_app (t : ChunkType) (l1 l2 : list Chunk) :
  count_type t (l1 ++ l2) = (count_type t l1 + count_type t l2)%nat.
Proof. unfold count_type. now rewrite filter_app, length_app. Qed.

Lemma keyframe_chunks_shape (row : Keyframe) :
  Forall (fun c => recognized_chunk (chunk_type c) = true) (keyframe_chunks row)
  /\ count_type CHUNK_KEYFRAME_START (keyframe_chunks row) = 1%nat
  /\ count_type CHUNK_KEYFRAME_END (keyframe_chunks row) = 1%nat
  /\ count_type CHUNK_DURATION (keyframe_chunks row) = 1%nat
  /\ Forall (fun c => chunk_type c = CHUNK_DURATION -> length (chunk_data c) = 8%nat)
       (keyframe_chunks row).
Proof.
  unfold keyframe_chunks.
  destruct (kf_params row); destruct (kf_thumbnail row) as [p | ];
    try destruct (gdk_pixbuf_save_to_buffer p); destruct (kf_spline row);
    cbn [app];
    (split; [repeat constructor | ]);
    (split; [reflexivity | ]); (split; [reflexivity | ]); (split; [reflexivity | ]);
    repeat constructor; cbn [chunk_type chunk_data];
    try (intros H; discriminate H); intros _; apply gdouble_to_bytes_length.
Qed.

(** X14: the file [animation_save_file] writes starts with the signature and
    holds recognized chunks only; for every keyframe it has exactly one
    keyframe-start, one keyframe-end and one duration chunk, and every
    duration chunk is 8 bytes long, so that loading it logs no warning. *)
Theorem saved_file_shape (self : Animation) :
  exists f,
    animation_save_file self true = Some f
    /\ file_signature f = FILE_SIGNATURE
    /\ Forall (fun c => recognized_chunk (chunk_type c) = true) (file_chunks f)
    /\ count_type CHUNK_KEYFRAME_START (file_chunks f) = length (ls_rows (model self))
    /\ count_type CHUNK_KEYFRAME_END (file_chunks f) = length (ls_rows (model self))
    /\ count_type CHUNK_DURATION (file_chunks f) = length (ls_rows (model self))
    /\ Forall (fun c => chunk_type c = CHUNK_DURATION -> length (chunk_data c) = 8%nat)
         (file_chunks f).
Proof.
  unfold animation_save_file. rewrite save_keyframes_chunks.
  eexists. split; [reflexivity | ].
  cbn [file_signature file_chunks chunked_file_write_signature chunked_file_new app].
  split; [reflexivity | ].
  induction (ls_rows (model self)) as [ | row rows IH]; cbn [flat_map length].
  - repeat split; constructor.
  - destruct IH as (I1 & I2 & I3 & I4 & I5).
    destruct (keyframe_chunks_shape row) as (K1 & K2 & K3 & K4 & K5).
    rewrite !count_type_app, K2, K3, K4, I2, I3, I4.
    repeat split; try reflexivity; apply Forall_app; split; assumption.
Qed.

(** ** The endpoints of an interpolation *)

(** X15: on a valid iterator [animation_iter_load_dejong] blends the
    parameters of the current keyframe with those of the keyframe after it,
    and with the current keyframe itself when it is the last one; the blend
    factor is the spline of the current keyframe applied to
    [time_after_keyframe / duration]. *)
Theorem load_dejong_endpoints (self : Animation) (iter : AnimationIter)
  (dejong : DeJong) (row : Keyframe) :
  valid iter = true ->
  gtk_tree_model_get (model self) (keyframe iter) = Some row ->
  let next :=
    match
      gtk_tree_model_get (model self)
        {| stamp := stamp (keyframe iter);
           user_data := S (user_data (keyframe iter)) |}
    with
    | Some r => r
    | None => row
    end in
  animation_iter_load_dejong self iter dejong
  = Ok (de_jong_interpolate_linear dejong
          (spline_solve_and_eval (kf_spline row)
             (time_after_keyframe iter / kf_duration row)%float)
          (de_jong_load_string de_jong_new (kf_params row))
          (de_jong_load_string de_jong_new (kf_params next))).
Proof.
  intros V G next. unfold animation_iter_load_dejong, animation_keyframe_load_dejong.
  rewrite V, G. cbn [negb bind].
  pose proof (gtk_tree_model_get_valid _ _ _ G) as Hv.
  rewrite (iter_next_of_valid _ _ Hv).
  apply iter_is_valid_iff in Hv. destruct Hv as [Hs Hu].
  unfold next.
  destruct (Nat.ltb_spec (S (user_data (keyframe iter)))
              (length (ls_rows (model self)))) as [Hlt | Hge].
  - destruct (gtk_tree_model_get_some (model self)
                {| stamp := stamp (keyframe iter);
                   user_data := S (user_data (keyframe iter)) |}) as [r Hr].
    { apply iter_is_valid_iff. cbn [stamp user_data]. split; assumption. }
    rewrite Hr. cbn [bind]. reflexivity.
  - replace (gtk_tree_model_get (model self)
               {| stamp := stamp (keyframe iter);
                  user_data := S (user_data (keyframe iter)) |}) with (@None Keyframe).
    + cbn [bind]. reflexivity.
    + symmetry. unfold gtk_tree_model_get.
      replace (iter_is_valid (model self)
                 {| stamp := stamp (keyframe iter);
                    user_data := S (user_data (keyframe iter)) |}) with false;
        [reflexivity | ].
      symmetry. unfold iter_is_valid. cbn [stamp user_data].
      apply andb_false_iff. right. apply Nat.ltb_ge. exact Hge.
Qed.

(** ** Keyframes of duration zero *)

Lemma walk_zero_durations (st : nat) (rows : list Keyframe) (index : nat) :
  Forall (fun r => kf_duration r = 0%float) rows ->
  walk st rows index 0%float 0%float
  = {| valid := false;
       keyframe := {| stamp := st; user_data := index + length rows |};
       absolute_time := 0%float; time_after_keyframe := 0%float |}.
Proof.
  intros H. revert index. induction H as [ | row rows Hrow _ IH]; intros index;
    cbn [walk length].
  - now rewrite Nat.add_0_r.
  - rewrite Hrow. cbn. rewrite IH. do 2 f_equal. lia.
Qed.

(** X16: keyframes of duration 0 are passed at once and do not stall the
    loop: in an animation whose keyframes all have duration 0, a seek to
    time 0 walks past every one of them and ends invalid, one past the last
    row, so that no frame can be read. *)
Theorem zero_durations_are_skipped (self : Animation) (iter : AnimationIter)
  (frame : DeJongPair) (frame_rate : gdouble) :
  ls_rows (model self) <> [] ->
  Forall (fun r => kf_duration r = 0%float) (ls_rows (model self)) ->
  let past_end :=
    {| valid := false;
       keyframe := {| stamp := ls_stamp (model self);
                      user_data := length (ls_rows (model self)) |};
       absolute_time := 0%float; time_after_keyframe := 0%float |} in
  animation_iter_seek self iter 0%float = Ok past_end
  /\ animation_iter_read_frame self past_end frame frame_rate
     = Ok (false, past_end, frame).
Proof.
  intros Hne Hz past_end. split; [ | reflexivity].
  unfold animation_iter_seek, animation_iter_seek_relative.
  rewrite (get_first_nonempty self iter Hne).
  cbn [valid keyframe absolute_time time_after_keyframe].
  rewrite (seek_loop_is_walk self (ls_rows (model self)) [] 0%float (0 + 0)%float).
  - cbn [length]. change (0 + 0)%float with 0%float.
    rewrite (walk_zero_durations _ _ 0 Hz). reflexivity.
  - reflexivity.
  - exact Hne.
  - reflexivity.
  - unfold seek_fuel. lia.
Qed.

(** ** The log of a load *)

Lemma load_set_log (st : LoadState) (f : Keyframe -> Keyframe) :
  ld_log (load_set st f)
  = ld_log st
    ++ (if negb (iter_is_valid (model (ld_self st)) (ld_iter st))
        then [CriticalInvalidIter] else []).
Proof.
  cbn [load_set ld_log].
  destruct (iter_is_valid (model (ld_self st)) (ld_iter st)); cbn [negb];
    [now rewrite app_nil_r | reflexivity].
Qed.

Lemma load_chunk_log (st : LoadState) (c : Chunk) :
  ld_log (load_chunk st c)
  = ld_log st
    ++ chunk_messages (iter_is_valid (model (ld_self st)) (ld_iter st)) c.
Proof.
  destruct c as [type data]. unfold chunk_messages, sets_a_column.
  cbn [chunk_type chunk_data].
  destruct (Z.eqb_spec type CHUNK_KEYFRAME_START) as [-> | N1].
  { rewrite load_chunk_start.
    destruct (animation_keyframe_append_default (ld_self st)).
    cbn [ld_log]. now rewrite app_nil_r. }
  destruct (Z.eqb_spec type CHUNK_KEYFRAME_END) as [-> | N2].
  { rewrite load_chunk_end. now rewrite app_nil_r. }
  destruct (Z.eqb_spec type CHUNK_DE_JONG_PARAMS) as [-> | N3].
  { rewrite load_chunk_params, load_set_log. reflexivity. }
  destruct (Z.eqb_spec type CHUNK_THUMBNAIL) as [-> | N4].
  { rewrite load_chunk_thumbnail, load_set_log. reflexivity. }
  destruct (Z.eqb_spec type CHUNK_DURATION) as [-> | N5].
  { rewrite load_chunk_duration. change (recognized_chunk CHUNK_DURATION) with true.
    change (CHUNK_DURATION =? CHUNK_DURATION) with true.
    change (CHUNK_DURATION =? CHUNK_DE_JONG_PARAMS) with false.
    change (CHUNK_DURATION =? CHUNK_THUMBNAIL) with false.
    change (CHUNK_DURATION =? CHUNK_SPLINE) with false.
    destruct (Nat.eqb (length data) 8); cbn [andb orb negb];
      [apply load_set_log | reflexivity]. }
  destruct (Z.eqb_spec type CHUNK_SPLINE) as [-> | N6].
  { rewrite load_chunk_spline, load_set_log. reflexivity. }
  assert (R : recognized_chunk type = false).
  { unfold recognized_chunk.
    repeat match goal with
           | H : ?x <> ?y |- context [?x =? ?y] =>
               rewrite (proj2 (Z.eqb_neq x y) H)
           end.
    reflexivity. }
  rewrite R.
  apply (f_equal ld_log
           (load_chunk_unknown st {| chunk_type := type; chunk_data := data |} R)).
Qed.

(** The local [iter] names a row from the first keyframe-start chunk on. *)
Lemma load_chunk_started (st : LoadState) (c : Chunk) :
  iter_is_valid (model (ld_self (load_chunk st c))) (ld_iter (load_chunk st c))
  = iter_is_valid (model (ld_self st)) (ld_iter st)
    || (chunk_type c =? CHUNK_KEYFRAME_START).
Proof.
  destruct c as [type data]. cbn [chunk_type].
  destruct (Z.eqb_spec type CHUNK_KEYFRAME_START) as [-> | N1].
  { rewrite orb_true_r, load_chunk_start, (animation_is_of_rows (ld_self st)).
    rewrite append_default_rows. cbn [ld_self ld_iter animation_of_rows model].
    apply iter_is_valid_iff. cbn [stamp user_data ls_stamp ls_rows].
    rewrite length_app. cbn [length]. split; [reflexivity | lia]. }
  rewrite orb_false_r. unfold load_chunk. cbn [chunk_type chunk_data].
  rewrite (proj2 (Z.eqb_neq _ _) N1).
  repeat match goal with
         | |- context [if ?x then _ else _] => destruct x
         end;
    cbn [load_set load_warn ld_self ld_iter model];
    rewrite ?set_keeps_validity; reflexivity.
Qed.

Lemma load_chunks_log (chunks : list Chunk) (st : LoadState) :
  ld_log (load_chunks st chunks)
  = ld_log st
    ++ file_messages (iter_is_valid (model (ld_self st)) (ld_iter st)) chunks.
Proof.
  revert st. induction chunks as [ | c chunks IH]; intros st.
  - cbn. now rewrite app_nil_r.
  - rewrite load_chunks_cons, IH, load_chunk_log, load_chunk_started.
    cbn [file_messages]. now rewrite app_assoc.
Qed.

(** X17: the log of [animation_load_file] on a file with the right signature
    is, in file order: a warning for every chunk of an unknown type, a
    warning for every duration chunk that is not 8 bytes long, and a
    critical message of [gtk_list_store_set] for every parameter, thumbnail,
    spline or 8-byte duration chunk that comes before the first
    keyframe-start chunk, where the local [iter] is not initialised (and
    does not carry the stamp of the cleared store); nothing else is
    logged. *)
Theorem load_log_is_file_messages (self : Animation) (chunks : list Chunk)
  (junk : GtkTreeIter) :
  stamp junk <> ls_stamp (model (animation_clear self)) ->
  snd (animation_load_file self
         (Some {| file_signature := FILE_SIGNATURE; file_chunks := chunks |}) junk)
  = file_messages false chunks.
Proof.
  intros Hjunk. unfold animation_load_file.
  replace (chunked_file_read_signature _ FILE_SIGNATURE) with true by reflexivity.
  cbn [negb snd file_chunks]. rewrite load_chunks_log.
  cbn [ld_log ld_self ld_iter app]. unfold iter_is_valid.
  now rewrite (proj2 (Nat.eqb_neq _ _) Hjunk).
Qed.

(** ** Reading frames safely *)

Lemma load_dejong_ok (self : Animation) (iter : AnimationIter) (dejong : DeJong) :
  iter_wf self iter ->
  exists d', animation_iter_load_dejong self iter dejong = Ok d'.
Proof.
  intros Hwf. unfold animation_iter_load_dejong, animation_keyframe_load_dejong.
  destruct (valid iter) eqn:V; cbn [negb]; [ | now exists dejong].
  specialize (Hwf V).
  destruct (gtk_tree_model_get_some _ _ Hwf) as [row G]. rewrite G. cbn [bind].
  rewrite (iter_next_of_valid _ _ Hwf).
  destruct (Nat.ltb_spec (S (user_data (keyframe iter)))
              (length (ls_rows (model self)))) as [Hlt | Hge].
  - destruct (gtk_tree_model_get_some (model self)
                {| stamp := stamp (keyframe iter);
                   user_data := S (user_data (keyframe iter)) |}) as [r Hr].
    { apply iter_is_valid_iff in Hwf. destruct Hwf as [Hs _].
      apply iter_is_valid_iff. cbn [stamp user_data]. split; assumption. }
    rewrite Hr. cbn [bind]. eexists. reflexivity.
  - cbn [bind]. eexists. reflexivity.
Qed.

(** X18: on an iterator that is invalid or names a row,
    [animation_iter_read_frame] reads no stale row and leaves such an
    iterator again.  When it returns TRUE the iterator was valid, the one it
    leaves is the result of seeking by [1 / frame_rate] and is valid, and
    both ends of the frame were loaded: [a] at the iterator of before the
    call, [b] at the one after. *)
Theorem read_frame_is_safe (self : Animation) (iter : AnimationIter)
  (frame : DeJongPair) (frame_rate : gdouble) :
  iter_wf self iter ->
  exists ok iter' frame',
    animation_iter_read_frame self iter frame frame_rate = Ok (ok, iter', frame')
    /\ iter_wf self iter'
    /\ (ok = true ->
        valid iter = true
        /\ animation_iter_seek_relative self iter (1 / frame_rate)%float = Ok iter'
        /\ valid iter' = true
        /\ animation_iter_load_dejong self iter (a frame) = Ok (a frame')
        /\ animation_iter_load_dejong self iter' (b frame) = Ok (b frame')).
Proof.
  intros Hwf. unfold animation_iter_read_frame.
  destruct (valid iter) eqn:V; cbn [negb].
  2: { exists false, iter, frame. split; [reflexivity | ].
       split; [exact Hwf | discriminate]. }
  destruct (load_dejong_ok self iter (a frame) Hwf) as [a' Ea].
  rewrite Ea. cbn [bind].
  unfold animation_iter_seek_relative.
  set (it0 := {| valid := valid iter; keyframe := keyframe iter;
                 absolute_time := absolute_time iter;
                 time_after_keyframe :=
                   (time_after_keyframe iter + 1 / frame_rate)%float |}).
  assert (Hwf0 : iter_wf self it0) by exact Hwf.
  destruct (seek_loop_keeps self (seek_fuel self) it0 Hwf0) as [Hne Hok].
  destruct (result_cases _ _ (seek_loop_terminates self it0) Hne) as [it' E].
  rewrite E. cbn [bind].
  destruct (Hok it' E) as [Hwf' _].
  destruct (valid it') eqn:V'; cbn [negb].
  - destruct (load_dejong_ok self it' (b frame) Hwf') as [b' Eb].
    rewrite Eb. cbn [bind].
    exists true, it', {| a := a'; b := b' |}.
    split; [reflexivity | ]. split; [exact Hwf' | ].
    intros _. cbn [a b]. repeat split; assumption.
  - exists false, it', {| a := a'; b := b frame |}.
    split; [reflexivity | ]. split; [exact Hwf' | discriminate].
Qed.

(** ** Seeks that move nothing *)

Lemma float_add_nan_r (x y : float) :
  SFis_nan (Prim2SF y) = true -> SFis_nan (Prim2SF (x + y)) = true.
Proof.
  rewrite add_spec. destruct (Prim2SF y); try discriminate.
  destruct (Prim2SF x); reflexivity.
Qed.

Lemma float_nan_not_leb (x y : float) :
  SFis_nan (Prim2SF y) = true -> (x <=? y)%float = false.
Proof.
  intros H. destruct (x <=? y)%float eqn:E; [ | reflexivity].
  apply float_leb_iff in E. destruct E as (_ & N & _). congruence.
Qed.

Lemma float_nan_not_ltb (x y : float) :
  SFis_nan (Prim2SF x) = true -> (x <? y)%float = false.
Proof.
  intros H. destruct (x <? y)%float eqn:E; [ | reflexivity].
  apply float_ltb_iff in E. destruct E as (N & _ & _). congruence.
Qed.

(** X19: once an iterator is invalid, [animation_iter_seek_relative] cannot
    bring it back: whatever the delta, forward or backward, the iterator
    stays invalid on the same keyframe reference and only
    [time_after_keyframe] changes. *)
Theorem invalid_iter_stays_invalid (self : Animation) (iter : AnimationIter)
  (delta_time : gdouble) :
  valid iter = false ->
  animation_iter_seek_relative self iter delta_time
  = Ok {| valid := false; keyframe := keyframe iter;
          absolute_time := absolute_time iter;
          time_after_keyframe := (time_after_keyframe iter + delta_time)%float |}.
Proof.
  intros V. unfold animation_iter_seek_relative, seek_fuel.
  replace (length (ls_rows (model self)) + 2)%nat
    with (S (S (length (ls_rows (model self))))) by lia.
  rewrite seek_loop_S. unfold seek_step. cbn [valid]. rewrite V. reflexivity.
Qed.

(** X20: a delta that is not a number moves nothing: on a valid iterator
    that names a row, [animation_iter_seek_relative] by NaN leaves the
    iterator valid on the same keyframe, with an offset that is NaN. *)
Theorem nan_delta_moves_nothing (self : Animation) (iter : AnimationIter)
  (row : Keyframe) :
  valid iter = true ->
  gtk_tree_model_get (model self) (keyframe iter) = Some row ->
  animation_iter_seek_relative self iter nan
  = Ok {| valid := true; keyframe := keyframe iter;
          absolute_time := absolute_time iter;
          time_after_keyframe := (time_after_keyframe iter + nan)%float |}
  /\ SFis_nan (Prim2SF (time_after_keyframe iter + nan)) = true.
Proof.
  intros V G.
  assert (N : SFis_nan (Prim2SF (time_after_keyframe iter + nan)) = true)
    by (apply float_add_nan_r; reflexivity).
  split; [ | exact N].
  unfold animation_iter_seek_relative, seek_fuel.
  replace (length (ls_rows (model self)) + 2)%nat
    with (S (S (length (ls_rows (model self))))) by lia.
  rewrite seek_loop_S, V.
  rewrite (seek_step_break self _ row); cbn [valid keyframe time_after_keyframe];
    try reflexivity; try assumption.
  - apply float_nan_not_leb, N.
  - apply float_nan_not_ltb, N.
Qed.

(** ** Storing parameters in place *)

Lemma update_nth_app_at (rows : list Keyframe) (n : nat) (f : Keyframe -> Keyframe)
  (row : Keyframe) :
  nth_error rows n = Some row ->
  update_nth n f rows = firstn n rows ++ f row :: skipn (S n) rows.
Proof.
  revert n. induction rows as [ | x rows IH]; intros [ | n] H; cbn in H;
    try discriminate.
  - injection H as ->. reflexivity.
  - cbn [update_nth firstn skipn app]. now rewrite (IH n H).
Qed.

(** X21: [animation_keyframe_store_dejong] on a keyframe that exists
    replaces its thumbnail and its parameter string and nothing else: the
    duration, spline and iterator of that row, its position, and every
    other row stay as they are. *)
Theorem store_dejong_is_local (self : Animation) (iter : GtkTreeIter)
  (dejong : DeJong) (row : Keyframe) :
  gtk_tree_model_get (model self) iter = Some row ->
  let self' := animation_keyframe_store_dejong self iter dejong in
  let n := user_data iter in
  ls_stamp (model self') = ls_stamp (model self)
  /\ ls_rows (model self')
     = firstn n (ls_rows (model self))
       ++ {| kf_thumbnail := Some (de_jong_make_thumbnail dejong 128 128);
             kf_params := Some (c_string (de_jong_save_string dejong));
             kf_duration := kf_duration row;
             kf_spline := kf_spline row;
             kf_iter := kf_iter row |}
       :: skipn (S n) (ls_rows (model self)).
Proof.
  intros G self' n. subst self' n.
  pose proof (gtk_tree_model_get_valid _ _ _ G) as Hv.
  unfold animation_keyframe_store_dejong. cbn [model].
  split; [apply set_stamp | ].
  unfold gtk_tree_model_get in G. rewrite Hv in G.
  unfold gtk_list_store_set. rewrite Hv. cbn [ls_rows].
  rewrite (update_nth_app_at _ _ _ row G). reflexivity.
Qed.

End Further.

(* ================================================================== *)
(** * Part 4: the theorems on concrete animations *)
(* ================================================================== *)

Lemma sample_spline_round_trip (s : @Spline sample_collaborators) :
  @spline_unserialize sample_collaborators
    (@spline_serialize sample_collaborators s) = s.
Proof.
  induction s as [ | [x y] s IH]; cbn in *.
  - reflexivity.
  - now rewrite IH.
Qed.


Lemma save_load_round_trip_witness :
  let loaded :=
    animation_load_file anim_3 (animation_save_file anim_5_5 true)
      (keyframe blank_iter) in
  length (ls_rows (model (fst loaded))) = length (ls_rows (model anim_5_5))
  /\ map kept_columns (ls_rows (model (fst loaded)))
     = map kept_columns (ls_rows (model anim_5_5))
  /\ map kf_thumbnail (ls_rows (model (fst loaded)))
     = map reloaded_thumbnail (ls_rows (model anim_5_5))
  /\ snd loaded = [].
Proof.
  apply (save_load_round_trip anim_5_5 anim_3 (keyframe blank_iter)).
  - exact sample_spline_round_trip.
  - repeat constructor; cbn; try discriminate;
      intros p E; injection E as <-; repeat constructor; discriminate.
Defined.

(** Seeking the 3-second animation forward by 7 seconds runs past its end;
    seeking back by 7 seconds then leaves the iterator invalid, 3 seconds
    before a keyframe it no longer has. *)
Lemma seek_past_the_end_and_back :
  (it1 <- animation_iter_seek_relative anim_3
            (animation_iter_get_first anim_3 blank_iter) 7%float ;;
   animation_iter_seek_relative anim_3 it1 (-7)%float)
  = Ok {| valid := false; keyframe := {| stamp := 1; user_data := 1 |};
          absolute_time := 0%float; time_after_keyframe := (-3)%float |}.
Proof. vm_compute. reflexivity. Qed.

Lemma seek_forward_then_back_witness :
  animation_iter_seek_relative anim_5_5
    {| valid := true; keyframe := {| stamp := 1; user_data := 1 |};
       absolute_time := 0%float; time_after_keyframe := 2%float |}
    (- 7)%float
  = Ok {| valid := true; keyframe := {| stamp := 1; user_data := 0 |};
          absolute_time := 0%float; time_after_keyframe := 0%float |}.
Proof.
  apply (seek_forward_then_back anim_5_5 blank_iter _ 7%float
           (sample_row 5%float) [sample_row 5%float]).
  - reflexivity.
  - reflexivity.
  - reflexivity.
  - vm_compute. reflexivity.
  - reflexivity.
  - right. reflexivity.
Defined.

Lemma load_bad_signature_keeps_store_witness :
  animation_load_file anim_5_5
    (Some {| file_signature := ["d"; "e"]%byte; file_chunks := [] |})
    (keyframe blank_iter)
  = (anim_5_5, [CriticalSignature]).
Proof.
  apply load_bad_signature_keeps_store. cbn. discriminate.
Defined.

Lemma duration_chunk_tolerance_witness :
  let st := sample_load_state in
  let bad := ["a"; "b"; "c"]%byte in
  let good := gdouble_to_bytes 2.5%float in
  let cb := {| chunk_type := CHUNK_DURATION; chunk_data := bad |} in
  let cg := {| chunk_type := CHUNK_DURATION; chunk_data := good |} in
  load_chunk st cb = load_warn st (WarnDurationSize 3)
  /\ option_map kf_duration
       (gtk_tree_model_get (model (ld_self (load_chunk st cb))) (ld_iter st))
     = Some 5%float
  /\ option_map kf_duration
       (gtk_tree_model_get (model (ld_self (load_chunk st cg))) (ld_iter st))
     = Some 2.5%float
  /\ ld_log st = []
  /\ ld_log (load_chunk st cb) = [WarnDurationSize 3]
  /\ ld_log (load_chunk st cg) = [].
Proof.
  intros st bad good cb cg.
  destruct (duration_chunk_tolerance st bad good
              (default_row {| stamp := 1; user_data := 0 |}) [])
    as (Hb & _ & _ & Hg & _ & Hlg & Hlb & _ & _ & Hrb).
  - cbn. discriminate.
  - reflexivity.
  - reflexivity.
  - fold cb in Hb, Hlb, Hrb. fold cg in Hg, Hlg.
    split; [exact Hb | ]. split; [rewrite Hrb; reflexivity | ].
    split; [rewrite Hg; vm_compute; reflexivity | ].
    split; [reflexivity | ]. split; [rewrite Hlb; reflexivity | ].
    rewrite Hlg. reflexivity.
Defined.

Lemma unknown_chunk_is_skipped_witness :
  let unknown := {| chunk_type := CHUNK_TYPE "t" "E" "X" "t"; chunk_data := ["x"]%byte |} in
  let start := {| chunk_type := CHUNK_KEYFRAME_START; chunk_data := [] |} in
  let dura := {| chunk_type := CHUNK_DURATION; chunk_data := gdouble_to_bytes 2.5%float |} in
  let file :=
    {| file_signature := FILE_SIGNATURE; file_chunks := [start] ++ unknown :: [dura] |} in
  let file' :=
    {| file_signature := FILE_SIGNATURE; file_chunks := [start] ++ [dura] |} in
  fst (animation_load_file anim_3 (Some file) (keyframe blank_iter))
  = fst (animation_load_file anim_3 (Some file') (keyframe blank_iter))
  /\ exists l1 l2,
       snd (animation_load_file anim_3 (Some file) (keyframe blank_iter))
       = l1 ++ WarnUnknownType (chunk_type unknown) :: l2
       /\ snd (animation_load_file anim_3 (Some file') (keyframe blank_iter))
          = l1 ++ l2.
Proof.
  intros unknown start dura.
  apply (unknown_chunk_is_skipped anim_3 [start] [dura] unknown (keyframe blank_iter)).
  reflexivity.
Defined.

Lemma read_frame_not_atomic_witness :
  let iter :=
    {| valid := true; keyframe := {| stamp := 1; user_data := 0 |};
       absolute_time := 0%float; time_after_keyframe := 2.5%float |} in
  let iter' :=
    {| valid := false; keyframe := {| stamp := 1; user_data := 1 |};
       absolute_time := 0%float; time_after_keyframe := 0%float |} in
  animation_iter_read_frame anim_3 iter sample_frame 2%float
  = Ok (false, iter',
        @Build_DeJongPair sample_collaborators ["a"; "="; "1"]%byte (b sample_frame))
  /\ iter' <> iter.
Proof.
  intros iter iter'.
  apply (read_frame_not_atomic anim_3 iter iter' sample_frame 2%float).
  - reflexivity.
  - reflexivity.
  - vm_compute. reflexivity.
  - reflexivity.
Defined.

Lemma get_time_of_stale_iter_is_length_witness :
  animation_keyframe_get_time anim_5_5 {| stamp := 0; user_data := 0 |} 0 0
  = animation_get_length anim_5_5.
Proof.
  apply get_time_of_stale_iter_is_length. reflexivity.
Defined.

(** ** Further properties on concrete animations *)

Lemma get_time_is_durations_before_witness :
  animation_keyframe_get_time anim_5_5 {| stamp := 1; user_data := 1 |} 0 0
  = 5%float
  /\ animation_keyframe_get_time anim_5_5 {| stamp := 1; user_data := 1 |} 7 0
     = 10%float.
Proof.
  split.
  - apply (get_time_is_durations_before anim_5_5
             {| stamp := 1; user_data := 1 |} 0 0).
    reflexivity.
  - apply (get_time_is_durations_before anim_5_5
             {| stamp := 1; user_data := 1 |} 7 0).
    reflexivity.
Defined.

Lemma seek_relative_is_safe_witness :
  let iter :=
    {| valid := true; keyframe := {| stamp := 1; user_data := 0 |};
       absolute_time := 0%float; time_after_keyframe := 1%float |} in
  exists iter',
    animation_iter_seek_relative anim_5_5 iter 6%float = Ok iter'
    /\ iter_wf anim_5_5 iter'
    /\ (absolute_time iter' = absolute_time iter
        \/ absolute_time iter' = 0%float).
Proof.
  intros iter. apply (seek_relative_is_safe anim_5_5 iter 6%float).
  intros _. reflexivity.
Defined.

Lemma backward_seek_resets_to_start_witness :
  animation_iter_seek_relative anim_5_5
    {| valid := true; keyframe := {| stamp := 1; user_data := 1 |};
       absolute_time := 0%float; time_after_keyframe := 1%float |}
    (-2)%float
  = Ok {| valid := true; keyframe := {| stamp := 1; user_data := 0 |};
          absolute_time := 0%float; time_after_keyframe := 0%float |}.
Proof.
  apply (backward_seek_resets_to_start anim_5_5 _ (-2)%float
           (sample_row 5%float) (sample_row 5%float) [sample_row 5%float]);
    reflexivity.
Defined.

Lemma seek_is_forward_walk_witness :
  animation_iter_seek anim_5_5 blank_iter 7%float
  = Ok (walk 1 (ls_rows (model anim_5_5)) 0 0%float (0 + 7)%float).
Proof.
  apply (seek_is_forward_walk anim_5_5 blank_iter 7%float).
  - discriminate.
  - reflexivity.
Defined.

Lemma read_frames_after_end_witness :
  read_frames 3 anim_3 blank_iter sample_frame 2%float
  = Ok ([false; false; false], blank_iter, sample_frame).
Proof.
  apply (read_frames_after_end 3 anim_3 blank_iter sample_frame 2%float).
  reflexivity.
Defined.

Lemma loaded_rows_are_complete_witness :
  let loaded :=
    fst (animation_load_file anim_3
           (Some {| file_signature := FILE_SIGNATURE; file_chunks := sample_chunks |})
           (keyframe blank_iter)) in
  let row :=
    set_params (Some ["a"]%byte) (default_row {| stamp := 2; user_data := 0 |}) in
  kf_spline row <> None
  /\ (forall p, kf_params row = Some p -> nul_free p)
  /\ kf_iter row = Some {| stamp := ls_stamp (model loaded); user_data := 0 |}
  /\ gtk_tree_model_get (model loaded)
       {| stamp := ls_stamp (model loaded); user_data := 0 |} = Some row.
Proof.
  intros loaded row.
  apply (loaded_rows_are_complete anim_3 sample_chunks (keyframe blank_iter) 0 row).
  reflexivity.
Defined.

Lemma reload_is_stable_witness :
  let loaded :=
    fst (animation_load_file anim_3
           (Some {| file_signature := FILE_SIGNATURE; file_chunks := sample_chunks |})
           (keyframe blank_iter)) in
  let again :=
    fst (animation_load_file anim_5_5 (animation_save_file loaded true)
           (keyframe blank_iter)) in
  map kept_columns (ls_rows (model again))
  = map kept_columns (ls_rows (model loaded)).
Proof.
  apply (reload_is_stable anim_3 anim_5_5 sample_chunks
           (keyframe blank_iter) (keyframe blank_iter)).
  exact sample_spline_round_trip.
Defined.

Lemma load_dejong_endpoints_witness :
  let iter :=
    {| valid := true; keyframe := {| stamp := 1; user_data := 1 |};
       absolute_time := 0%float; time_after_keyframe := 2.5%float |} in
  animation_iter_load_dejong anim_5_5 iter (a sample_frame)
  = Ok (@de_jong_interpolate_linear sample_collaborators (a sample_frame)
          0.5%float ["a"; "="; "1"]%byte ["a"; "="; "1"]%byte).
Proof.
  intros iter.
  apply (load_dejong_endpoints anim_5_5 iter (a sample_frame) (sample_row 5%float));
    reflexivity.
Defined.

Lemma zero_durations_are_skipped_witness :
  let past_end :=
    {| valid := false; keyframe := {| stamp := 1; user_data := 2 |};
       absolute_time := 0%float; time_after_keyframe := 0%float |} in
  animation_iter_seek anim_0_0 blank_iter 0%float = Ok past_end
  /\ animation_iter_read_frame anim_0_0 past_end sample_frame 2%float
     = Ok (false, past_end, sample_frame).
Proof.
  apply (zero_durations_are_skipped anim_0_0 blank_iter sample_frame 2%float).
  - discriminate.
  - repeat constructor.
Defined.

Lemma read_frame_is_safe_witness :
  let iter :=
    {| valid := true; keyframe := {| stamp := 1; user_data := 0 |};
       absolute_time := 0%float; time_after_keyframe := 1%float |} in
  exists ok iter' frame',
    animation_iter_read_frame anim_3 iter sample_frame 2%float
    = Ok (ok, iter', frame')
    /\ iter_wf anim_3 iter'
    /\ (ok = true ->
        valid iter = true
        /\ animation_iter_seek_relative anim_3 iter (1 / 2)%float = Ok iter'
        /\ valid iter' = true
        /\ animation_iter_load_dejong anim_3 iter (a sample_frame) = Ok (a frame')
        /\ animation_iter_load_dejong anim_3 iter' (b sample_frame) = Ok (b frame')).
Proof.
  intros iter. apply (read_frame_is_safe anim_3 iter sample_frame 2%float).
  intros _. reflexivity.
Defined.

Lemma invalid_iter_stays_invalid_witness :
  animation_iter_seek_relative anim_3 blank_iter (-7)%float
  = Ok {| valid := false; keyframe := keyframe blank_iter;
          absolute_time := 0%float; time_after_keyframe := (0 + -7)%float |}.
Proof.
  apply (invalid_iter_stays_invalid anim_3 blank_iter (-7)%float). reflexivity.
Defined.

Lemma nan_delta_moves_nothing_witness :
  let iter :=
    {| valid := true; keyframe := {| stamp := 1; user_data := 1 |};
       absolute_time := 0%float; time_after_keyframe := 1%float |} in
  animation_iter_seek_relative anim_5_5 iter nan
  = Ok {| valid := true; keyframe := keyframe iter;
          absolute_time := absolute_time iter;
          time_after_keyframe := (time_after_keyframe iter + nan)%float |}
  /\ SFis_nan (Prim2SF (time_after_keyframe iter + nan)) = true.
Proof.
  intros iter.
  apply (nan_delta_moves_nothing anim_5_5 iter (sample_row 5%float)); reflexivity.
Defined.

Lemma store_dejong_is_local_witness :
  let iter := {| stamp := 1; user_data := 1 |} in
  let self' := animation_keyframe_store_dejong anim_5_5 iter ["b"; "="; "2"]%byte in
  ls_stamp (model self') = ls_stamp (model anim_5_5)
  /\ ls_rows (model self')
     = firstn 1 (ls_rows (model anim_5_5))
       ++ {| kf_thumbnail :=
               Some (@de_jong_make_thumbnail sample_collaborators
                       ["b"; "="; "2"]%byte 128 128);
             kf_params := Some (c_string ["b"; "="; "2"]%byte);
             kf_duration := 5%float;
             kf_spline := kf_spline (sample_row 5%float);
             kf_iter := None |}
       :: skipn 2 (ls_rows (model anim_5_5)).
Proof.
  intros iter.
  apply (store_dejong_is_local anim_5_5 iter ["b"; "="; "2"]%byte (sample_row 5%float)).
  reflexivity.
Defined.

Lemma load_log_is_file_messages_witness :
  let start := {| chunk_type := CHUNK_KEYFRAME_START; chunk_data := [] |} in
  let params := {| chunk_type := CHUNK_DE_JONG_PARAMS; chunk_data := ["a"]%byte |} in
  let dura := {| chunk_type := CHUNK_DURATION; chunk_data := gdouble_to_bytes 2.5%float |} in
  let short := {| chunk_type := CHUNK_DURATION; chunk_data := ["x"; "y"; "z"]%byte |} in
  let unknown := {| chunk_type := CHUNK_TYPE "t" "E" "X" "t"; chunk_data := [] |} in
  snd (animation_load_file anim_3
         (Some {| file_signature := FILE_SIGNATURE;
                  file_chunks := [params; short; dura; unknown; start;
                                  params; dura; short] |})
         (keyframe blank_iter))
  = [CriticalInvalidIter; WarnDurationSize 3; CriticalInvalidIter;
     WarnUnknownType (CHUNK_TYPE "t" "E" "X" "t"); WarnDurationSize 3].
Proof.
  intros start params dura short unknown.
  apply (load_log_is_file_messages anim_3
           [params; short; dura; unknown; start; params; dura; short]
           (keyframe blank_iter)).
  cbn. discriminate.
Defined.
